(** * Video-Streamer: the adaptive frame encoder of python-version/main.py

    A shallow embedding of the encoder suite, the palette cache
    ([PaletteManager]), the frame store ([IMAGE_FRAMES]) and the two request
    handlers of [ImageChunkHandler], followed by the properties the
    specification states about them.

    Conventions.
    - A Python [str] is a [string]; every payload the encoders build is
      ASCII, so characters and bytes coincide.
    - A [numpy] [uint8] is a [byte]; a pixel is a triple of bytes; a pixel
      buffer of shape (H, W, 3) is the list of its H rows.
    - An [OrderedDict] (and a plain insertion-ordered [dict]) is an
      association list in iteration order, first entry = oldest.
    - Global state is threaded explicitly; an exception leaves the state as
      it was at the point of the [raise], exactly as in Python.
    - The frame producer ([_generate_image], with the mode rotation and its
      clock) is an external collaborator: each request carries the buffer
      the producer returned, or the exception it raised. *)

From Stdlib Require Import List String Ascii NArith ZArith Arith Bool Lia.
From Stdlib.Strings Require Import Byte.
From Stdlib Require Import HexString DecimalString DecimalNat Sorted.
From Stdlib Require Import Permutation.
Import ListNotations.
Local Open Scope list_scope.
Local Open Scope string_scope.

(* ====================================================================== *)
(** ** Constants *)
(* ====================================================================== *)

Definition CHUNK_SIZE_LIMIT : nat := 4000.
Definition IMG_WIDTH : nat := 200.
Definition IMG_HEIGHT : nat := 150.
Definition MAX_PALETTES_TO_KEEP : nat := 500.
Definition MAX_PALETTE_COLORS : nat := 256.
Definition MAX_FRAMES_TO_KEEP : nat := 10.

(* ====================================================================== *)
(** ** Python string formatting *)
(* ====================================================================== *)

Module Fmt.

(** [f"{n:x}"]: lowercase hexadecimal, no prefix, no padding. *)
Definition hex (n : nat) : string :=
  match N.of_nat n with
  | N0 => "0"
  | Npos p => HexString.Raw.of_pos p ""
  end.

(** [f"{n:02x}"]: as [hex], left-padded with zeros to width two. *)
Definition hex02 (n : nat) : string :=
  let s := hex n in
  if (String.length s <? 2)%nat then "0" ++ s else s.

(** [f"{n}"] for a non-negative integer. *)
Definition dec (n : nat) : string :=
  NilEmpty.string_of_uint (Nat.to_uint n).

(** [sep.join(parts)]. *)
Fixpoint join (sep : string) (parts : list string) : string :=
  match parts with
  | [] => ""
  | [p] => p
  | p :: rest => p ++ sep ++ join sep rest
  end.

(** ["".join(parts)]. *)
Definition concat_all (parts : list string) : string :=
  fold_right String.append "" parts.

End Fmt.

(* ====================================================================== *)
(** ** Insertion-ordered dictionaries *)
(* ====================================================================== *)

Module OD.
Section Dict.
Context {K V : Type} (keqb : K -> K -> bool).

Definition t := list (K * V).

(** [d.get(k)] / [k in d] / [d[k]]. *)
Fixpoint get (k : K) (d : list (K * V)) : option V :=
  match d with
  | [] => None
  | (k', v) :: d' => if keqb k' k then Some v else get k d'
  end.

Definition mem (k : K) (d : list (K * V)) : bool :=
  match get k d with Some _ => true | None => false end.

(** [d[k] = v]: an existing key keeps its position, a new key goes last. *)
Fixpoint set (k : K) (v : V) (d : list (K * V)) : list (K * V) :=
  match d with
  | [] => [(k, v)]
  | (k', v') :: d' =>
      if keqb k' k then (k', v) :: d' else (k', v') :: set k v d'
  end.

Fixpoint remove (k : K) (d : list (K * V)) : list (K * V) :=
  match d with
  | [] => []
  | (k', v') :: d' => if keqb k' k then d' else (k', v') :: remove k d'
  end.

(** [d.move_to_end(k)] for a key that is present. *)
Definition move_to_end (k : K) (d : list (K * V)) : list (K * V) :=
  match get k d with
  | Some v => (remove k d ++ [(k, v)])%list
  | None => d
  end.

(** [d.popitem(last=False)] on a non-empty dictionary. *)
Definition popitem_first (d : list (K * V)) : list (K * V) := tl d.

(** [d[next(reversed(d))]]: the value inserted last. *)
Definition last_value (d : list (K * V)) : option V :=
  match rev d with
  | [] => None
  | (_, v) :: _ => Some v
  end.

Definition keys (d : list (K * V)) : list K := map fst d.

End Dict.
End OD.

(* ====================================================================== *)
(** ** The RLE primitive: [ImageChunkHandler._rle_encode] *)
(* ====================================================================== *)

Section RLE.
Context {A : Type}.
Variable eqb : A -> A -> bool.

(** The [for val in it] loop, with its three loop variables. *)
Fixpoint rle_loop (it : list A) (prev_val : A) (count : nat)
    (encoded : list (A * nat)) : list (A * nat) :=
  match it with
  | [] => (encoded ++ [(prev_val, count)])%list
  | val :: it' =>
      if eqb val prev_val
      then rle_loop it' prev_val (S count) encoded
      else rle_loop it' val 1 (encoded ++ [(prev_val, count)])%list
  end.

Definition _rle_encode (data_stream : list A) : list (A * nat) :=
  match data_stream with
  | [] => []
  | prev_val :: it => rle_loop it prev_val 1 []
  end.

(** The decoder the specification describes: each pair expands to
    [run-length] copies of its symbol, in pair order. *)
Definition rle_expand (encoded : list (A * nat)) : list A :=
  flat_map (fun p => repeat (fst p) (snd p)) encoded.

Definition run_length_sum (encoded : list (A * nat)) : nat :=
  list_sum (map snd encoded).

End RLE.

(* ====================================================================== *)
(** ** Pixels and pixel buffers *)
(* ====================================================================== *)

Definition pixel : Type := byte * byte * byte.

(** A buffer of shape (H, W, 3): H rows of W pixels. *)
Definition PixelBuffer : Type := list (list pixel).

Definition chan (b : byte) : nat := N.to_nat (Byte.to_N b).

Definition pixel_eqb (p q : pixel) : bool :=
  let '(r1, g1, b1) := p in
  let '(r2, g2, b2) := q in
  Byte.eqb r1 r2 && Byte.eqb g1 g2 && Byte.eqb b1 b2.

(** Lexicographic order on (R, G, B), the row order of
    [np.unique(..., axis=0)]. *)
Definition pixel_ltb (p q : pixel) : bool :=
  let '(r1, g1, b1) := p in
  let '(r2, g2, b2) := q in
  (chan r1 <? chan r2)%nat
  || ((chan r1 =? chan r2)%nat
      && ((chan g1 <? chan g2)%nat
          || ((chan g1 =? chan g2)%nat && (chan b1 <? chan b2)%nat))).

(** [image_data.reshape(-1, 3)]: the pixels in row-major scan order. *)
Definition reshape (image_data : PixelBuffer) : list pixel :=
  List.concat image_data.

(** [image_data.tobytes()]. *)
Definition tobytes (image_data : PixelBuffer) : list byte :=
  flat_map (fun p : pixel => let '(r, g, b) := p in [r; g; b])
           (reshape image_data).

(** [f"{p[0]:02x}{p[1]:02x}{p[2]:02x}"]. *)
Definition hex_color (p : pixel) : string :=
  let '(r, g, b) := p in
  Fmt.hex02 (chan r) ++ Fmt.hex02 (chan g) ++ Fmt.hex02 (chan b).

(** [image_data[y, x]] for a coordinate inside the buffer. *)
Definition pixel_at (image_data : PixelBuffer) (y x : nat) : pixel :=
  nth x (nth y image_data []) (x00, x00, x00).

(** *** [np.unique(pixels, axis=0)]: sorted, duplicate-free rows *)

Fixpoint insert_unique (p : pixel) (sorted : list pixel) : list pixel :=
  match sorted with
  | [] => [p]
  | q :: rest =>
      if pixel_eqb p q then sorted
      else if pixel_ltb p q then p :: sorted
      else q :: insert_unique p rest
  end.

Definition np_unique (pixels : list pixel) : list pixel :=
  fold_right insert_unique [] pixels.

(** *** [np.where(np.any(image_data != prev_data, axis=2))]

    The coordinates (y, x) at which the two buffers differ, in row-major
    order.  Both buffers come from the frame producer and have the same
    shape; the comparison walks them in lockstep. *)

Fixpoint diff_row (y x : nat) (row prev_row : list pixel)
  : list (nat * nat) :=
  match row, prev_row with
  | p :: row', q :: prev_row' =>
      if pixel_eqb p q then diff_row y (S x) row' prev_row'
      else (y, x) :: diff_row y (S x) row' prev_row'
  | _, _ => []
  end.

Fixpoint diff_rows (y : nat) (image_data prev_data : PixelBuffer)
  : list (nat * nat) :=
  match image_data, prev_data with
  | row :: rows, prev_row :: prev_rows =>
      (diff_row y 0 row prev_row ++ diff_rows (S y) rows prev_rows)%list
  | _, _ => []
  end.

Definition diff_coords (image_data prev_data : PixelBuffer)
  : list (nat * nat) :=
  diff_rows 0 image_data prev_data.

(* ====================================================================== *)
(** ** [base64.b64encode] *)
(* ====================================================================== *)

Module Base64.

(** The character of a six-bit value in the standard alphabet. *)
Definition digit (n : N) : ascii :=
  if (n <? 26)%N then ascii_of_N (65 + n)
  else if (n <? 52)%N then ascii_of_N (97 + (n - 26))
  else if (n <? 62)%N then ascii_of_N (48 + (n - 52))
  else if (n =? 62)%N then "+"%char
  else "/"%char.

Definition sextet (word : N) (shift : N) : ascii :=
  digit (N.land (N.shiftr word shift) 63).

Fixpoint b64encode (data : list byte) : string :=
  match data with
  | [] => ""
  | [a] =>
      let w := N.shiftl (Byte.to_N a) 16 in
      String (sextet w 18) (String (sextet w 12) "==")
  | [a; b] =>
      let w := N.lor (N.shiftl (Byte.to_N a) 16) (N.shiftl (Byte.to_N b) 8) in
      String (sextet w 18) (String (sextet w 12) (String (sextet w 6) "="))
  | a :: b :: c :: rest =>
      let w := N.lor (N.lor (N.shiftl (Byte.to_N a) 16)
                            (N.shiftl (Byte.to_N b) 8)) (Byte.to_N c) in
      String (sextet w 18) (String (sextet w 12)
        (String (sextet w 6) (String (sextet w 0) (b64encode rest))))
  end.

End Base64.

(* ====================================================================== *)
(** ** Exceptions and state *)
(* ====================================================================== *)

Inductive exn : Type := KeyError | ValueError | OSError | ProducerError.

Inductive outcome (A : Type) : Type :=
| Ret (a : A)
| Raise (e : exn).
Arguments Ret {A} a.
Arguments Raise {A} e.

(** A computation over a mutable store [S]: it returns or raises, and in
    both cases leaves the store as mutated so far. *)
Definition M (S A : Type) : Type := S -> outcome A * S.

Definition ret {S A : Type} (a : A) : M S A := fun s => (Ret a, s).

Definition raise {S A : Type} (e : exn) : M S A := fun s => (Raise e, s).

Definition bind {S A B : Type} (m : M S A) (k : A -> M S B) : M S B :=
  fun s =>
    match m s with
    | (Ret a, s') => k a s'
    | (Raise e, s') => (Raise e, s')
    end.

Definition get_store {S : Type} : M S S := fun s => (Ret s, s).

Definition put_store {S : Type} (s : S) : M S unit := fun _ => (Ret tt, s).

(** An optional value whose absence is an exception ([d[k]] on a dict). *)
Definition or_raise {S A : Type} (e : exn) (o : option A) : M S A :=
  match o with
  | Some a => ret a
  | None => raise e
  end.

Declare Scope py_scope.
Delimit Scope py_scope with py.
Notation "x <- m ;; k" := (bind m (fun x => k))
  (at level 61, m at next level, right associativity) : py_scope.
Notation "' pat <- m ;; k" := (bind m (fun x => match x with pat => k end))
  (at level 61, pat pattern, m at next level, right associativity) : py_scope.
Local Open Scope py_scope.

(* ====================================================================== *)
(** ** The palette cache: [PaletteManager] *)
(* ====================================================================== *)

Record PaletteData : Type := {
  colors : list pixel;        (* data['colors'], the tuple used as key *)
  colors_list : list pixel    (* data['colors_list'] *)
}.

Record PaletteManager : Type := {
  palettes : list (nat * PaletteData);
  max_size : nat;
  next_palette_id : nat
}.

Definition PaletteManager_init (size : nat) : PaletteManager :=
  {| palettes := []; max_size := size; next_palette_id := 0 |}.

(** [data['colors'] == colors_tuple]. *)
Fixpoint colors_eqb (a b : list pixel) : bool :=
  match a, b with
  | [], [] => true
  | p :: a', q :: b' => pixel_eqb p q && colors_eqb a' b'
  | _, _ => false
  end.

Definition get_or_create_palette (unique_colors : list pixel)
  : M PaletteManager (nat * bool * list pixel) :=
  fun self =>
    match find (fun e => colors_eqb (colors (snd e)) unique_colors)
               (palettes self) with
    | Some (pid, data) =>
        (Ret (pid, false, colors_list data),
         {| palettes := OD.move_to_end Nat.eqb pid (palettes self);
            max_size := max_size self;
            next_palette_id := next_palette_id self |})
    | None =>
        let palette_id := next_palette_id self in
        let inserted :=
          OD.set Nat.eqb palette_id
                 {| colors := unique_colors; colors_list := unique_colors |}
                 (palettes self) in
        let kept :=
          if (max_size self <? List.length inserted)%nat
          then OD.popitem_first inserted
          else inserted in
        let self' :=
          {| palettes := kept;
             max_size := max_size self;
             next_palette_id := S palette_id |} in
        match OD.get Nat.eqb palette_id kept with
        | Some data => (Ret (palette_id, true, colors_list data), self')
        | None => (Raise KeyError, self')
        end
    end.

(* ====================================================================== *)
(** ** The encoder suite *)
(* ====================================================================== *)

Definition _create_full_update (image_data : PixelBuffer) : string :=
  "F|" ++ Base64.b64encode (tobytes image_data).

Definition rle_pair (p : string * nat) : string :=
  fst p ++ "," ++ Fmt.hex (snd p).

Definition _create_full_rle_update (image_data : PixelBuffer)
  : option string :=
  let hex_colors := map hex_color (reshape image_data) in
  let rle_data := _rle_encode String.eqb hex_colors in
  match rle_data with
  | [] => None
  | _ => Some ("FR|" ++ Fmt.join "|" (map rle_pair rle_data))
  end.

(** [f"{y * IMG_WIDTH + x:x}"]. *)
Definition linear_index (c : nat * nat) : string :=
  Fmt.hex (fst c * IMG_WIDTH + snd c).

Definition _create_diff_update (image_data : PixelBuffer)
           (prev_data : option PixelBuffer) : option string :=
  match prev_data with
  | None => None
  | Some prev =>
      let coords := diff_coords image_data prev in
      match coords with
      | [] => None
      | _ =>
          let parts :=
            map (fun c => linear_index c ++ ":"
                          ++ hex_color (pixel_at image_data (fst c) (snd c)))
                coords in
          Some ("D|" ++ Fmt.join "|" parts)
      end
  end.

(** [1 < num_colors <= MAX_PALETTE_COLORS]. *)
Definition palette_bound (num_colors : nat) : bool :=
  (1 <? num_colors)%nat && (num_colors <=? MAX_PALETTE_COLORS)%nat.

(** [pid in client_cached_pids]. *)
Definition pid_in (pid : nat) (client_cached_pids : list Z) : bool :=
  existsb (Z.eqb (Z.of_nat pid)) client_cached_pids.

(** The palette field: the color table when it has to be sent, else
    empty. *)
Definition palette_payload_of (is_new_to_server : bool) (pid : nat)
           (client_cached_pids : list Z) (palette : list pixel) : string :=
  let send_palette_data :=
    is_new_to_server || negb (pid_in pid client_cached_pids) in
  if send_palette_data then Fmt.join "," (map hex_color palette) else "".

(** [{tuple(color): i for i, color in enumerate(palette)}]. *)
Fixpoint color_to_idx_from (i : nat) (palette : list pixel)
         (acc : list (pixel * nat)) : list (pixel * nat) :=
  match palette with
  | [] => acc
  | color :: rest =>
      color_to_idx_from (S i) rest (OD.set pixel_eqb color i acc)
  end.

Definition color_to_idx (palette : list pixel) : list (pixel * nat) :=
  color_to_idx_from 0 palette [].

(** [[color_to_idx[tuple(p)] for p in pixels]]; a missing key raises. *)
Fixpoint lookup_indices (table : list (pixel * nat)) (pixels : list pixel)
  : option (list nat) :=
  match pixels with
  | [] => Some []
  | p :: rest =>
      match OD.get pixel_eqb p table with
      | None => None
      | Some i =>
          match lookup_indices table rest with
          | None => None
          | Some idxs => Some (i :: idxs)
          end
      end
  end.

(** ["{:x}" if num_colors <= 16 else "{:02x}"]. *)
Definition hex_format (num_colors : nat) : nat -> string :=
  if (num_colors <=? 16)%nat then Fmt.hex else Fmt.hex02.

Definition _create_indexed_update (image_data : PixelBuffer)
           (client_cached_pids : list Z) : M PaletteManager (option string) :=
  let unique_colors := np_unique (reshape image_data) in
  let num_colors := List.length unique_colors in
  if negb (palette_bound num_colors) then ret None
  else
    '(pid, is_new_to_server, palette) <- get_or_create_palette unique_colors ;;
    let palette_payload :=
      palette_payload_of is_new_to_server pid client_cached_pids palette in
    indices <- or_raise KeyError
                 (lookup_indices (color_to_idx palette) (reshape image_data)) ;;
    let indices_payload :=
      Fmt.concat_all (map (hex_format num_colors) indices) in
    ret (Some ("I|" ++ Fmt.dec pid ++ "|" ++ palette_payload ++ "|"
               ++ indices_payload)).

Definition _create_indexed_rle_update (image_data : PixelBuffer)
           (client_cached_pids : list Z) : M PaletteManager (option string) :=
  let unique_colors := np_unique (reshape image_data) in
  let num_colors := List.length unique_colors in
  if negb (palette_bound num_colors) then ret None
  else
    '(pid, is_new_to_server, palette) <- get_or_create_palette unique_colors ;;
    let palette_payload :=
      palette_payload_of is_new_to_server pid client_cached_pids palette in
    indices <- or_raise KeyError
                 (lookup_indices (color_to_idx palette) (reshape image_data)) ;;
    let rle_data := _rle_encode Nat.eqb indices in
    match rle_data with
    | [] => ret None
    | _ =>
        let rle_payload :=
          Fmt.join "|"
            (map (fun p => hex_format num_colors (fst p) ++ ","
                           ++ Fmt.hex (snd p)) rle_data) in
        ret (Some ("IR|" ++ Fmt.dec pid ++ "|" ++ palette_payload ++ "|"
                   ++ rle_payload))
    end.

Definition _create_diff_indexed_update (image_data : PixelBuffer)
           (prev_data : option PixelBuffer) (client_cached_pids : list Z)
  : M PaletteManager (option string) :=
  match prev_data with
  | None => ret None
  | Some prev =>
      let unique_colors := np_unique (reshape image_data) in
      let num_colors := List.length unique_colors in
      if negb (palette_bound num_colors) then ret None
      else
        let coords := diff_coords image_data prev in
        match coords with
        | [] => ret None
        | _ =>
            '(pid, is_new_to_server, palette) <-
               get_or_create_palette unique_colors ;;
            let palette_payload :=
              palette_payload_of is_new_to_server pid client_cached_pids
                                 palette in
            idxs <- or_raise KeyError
                      (lookup_indices (color_to_idx palette)
                         (map (fun c => pixel_at image_data (fst c) (snd c))
                              coords)) ;;
            let parts :=
              map (fun ci => linear_index (fst ci) ++ ":"
                             ++ hex_format num_colors (snd ci))
                  (combine coords idxs) in
            ret (Some ("DI|" ++ Fmt.dec pid ++ "|" ++ palette_payload ++ "|"
                       ++ Fmt.join "|" parts))
        end
  end.

(* ====================================================================== *)
(** ** Python built-ins used by the handlers *)
(* ====================================================================== *)

Module Py.

(** Characters [int()] and [str.strip] treat as white space (ASCII). *)
Definition is_space (c : ascii) : bool :=
  let n := nat_of_ascii c in
  (n =? 32)%nat || ((9 <=? n)%nat && (n <=? 13)%nat)
  || ((28 <=? n)%nat && (n <=? 31)%nat).

Fixpoint lstrip (s : string) : string :=
  match s with
  | String c s' => if is_space c then lstrip s' else s
  | EmptyString => s
  end.

Fixpoint rev_string (s acc : string) : string :=
  match s with
  | EmptyString => acc
  | String c s' => rev_string s' (String c acc)
  end.

Definition strip (s : string) : string :=
  rev_string (lstrip (rev_string (lstrip s) "")) "".

Definition digit_val (c : ascii) : option Z :=
  let n := nat_of_ascii c in
  if ((48 <=? n)%nat && (n <=? 57)%nat) then Some (Z.of_nat (n - 48))
  else None.

(** Decimal digits, single underscores allowed between two digits. *)
Fixpoint digits (s : string) (acc : Z) (after_digit : bool) : option Z :=
  match s with
  | EmptyString => if after_digit then Some acc else None
  | String c s' =>
      match digit_val c with
      | Some d => digits s' (10 * acc + d)%Z true
      | None =>
          if (Ascii.eqb c "_" && after_digit)%bool then digits s' acc false
          else None
      end
  end.

(** [int(s)] on an ASCII string: [None] stands for [ValueError]. *)
Definition int (s : string) : option Z :=
  match strip s with
  | EmptyString => None
  | String c s' =>
      if Ascii.eqb c "-" then option_map Z.opp (digits s' 0%Z false)
      else if Ascii.eqb c "+" then digits s' 0%Z false
      else digits (String c s') 0%Z false
  end.

(** [s.split(sep)] for a one-character separator. *)
Fixpoint split_from (sep : ascii) (s : string) (cur : string)
  : list string :=
  match s with
  | EmptyString => [rev_string cur ""]
  | String c s' =>
      if Ascii.eqb c sep then rev_string cur "" :: split_from sep s' ""
      else split_from sep s' (String c cur)
  end.

Definition split (sep : ascii) (s : string) : list string :=
  split_from sep s "".

(** [range(0, stop, step)] for a positive step. *)
Definition range (stop step : nat) : list nat :=
  map (fun k => k * step) (seq 0 ((stop + step - 1) / step)).

(** [min(items, key=key)]: the first item whose key is minimal. *)
Fixpoint min_from {A : Type} (key : A -> nat) (best : A) (items : list A)
  : A :=
  match items with
  | [] => best
  | x :: rest =>
      if (key x <? key best)%nat then min_from key x rest
      else min_from key best rest
  end.

Definition min {A : Type} (key : A -> nat) (items : list A) : option A :=
  match items with
  | [] => None
  | x :: rest => Some (min_from key x rest)
  end.

End Py.

(* ====================================================================== *)
(** ** The frame store and the request handlers *)
(* ====================================================================== *)

Record Frame : Type := {
  chunks : list string;
  timestamp : Z;
  image_data : PixelBuffer
}.

(** The two global structures the handlers share. *)
Record Server : Type := {
  palette_manager : PaletteManager;
  IMAGE_FRAMES : list (string * Frame)
}.

Definition Server_init : Server :=
  {| palette_manager := PaletteManager_init MAX_PALETTES_TO_KEEP;
     IMAGE_FRAMES := [] |}.

(** What the outside world contributes to one request: the buffer the
    frame producer returns (or the exception it raises), the token
    [uuid.uuid4().hex], the clock reading [time.time()], and whether
    [self.wfile.write(...)] of the response body returns or raises. *)
Record Env : Type := {
  produced : outcome PixelBuffer;
  uuid_hex : string;
  now : Z;
  wfile_ok : bool
}.

Record response : Type := {
  status : nat;
  body : string
}.

(** [params.get(key, [None])[0]] on the result of [parse_qs]. *)
Definition params_get (key : string) (params : list (string * string))
  : option string :=
  OD.get String.eqb key params.

Definition lift_palette_manager {A : Type} (m : M PaletteManager A)
  : M Server A :=
  fun st =>
    let (r, pm) := m (palette_manager st) in
    (r, {| palette_manager := pm; IMAGE_FRAMES := IMAGE_FRAMES st |}).

Definition of_outcome {S A : Type} (o : outcome A) : M S A :=
  fun s => (o, s).

(** [send_response(code)] ... [end_headers()], and [send_error]. *)
Definition send_response (code : nat) (text : string) : response :=
  {| status := code; body := text |}.

(** [self.wfile.write(response_body.encode('utf-8'))] after a 200. *)
Definition wfile_write {S : Type} (env : Env) (response_body : string)
  : M S response :=
  if wfile_ok env then ret (send_response 200 response_body)
  else raise OSError.

(** The [cached_pids] hint: a malformed entry empties the whole set. *)
Fixpoint ints_of (parts : list string) : option (list Z) :=
  match parts with
  | [] => Some []
  | p :: rest =>
      match Py.int p, ints_of rest with
      | Some n, Some ns => Some (n :: ns)
      | _, _ => None
      end
  end.

Definition parse_cached_pids (cached_pids_str : option string) : list Z :=
  match cached_pids_str with
  | None | Some EmptyString => []
  | Some s =>
      match ints_of (Py.split "," s) with
      | Some pids => pids
      | None => []
      end
  end.

(** The [candidates] dictionary, its entries evaluated in source order. *)
Definition candidates_of (image : PixelBuffer)
           (prev_frame_data : option PixelBuffer)
           (client_cached_pids : list Z)
  : M PaletteManager (list (string * option string)) :=
  let full := _create_full_update image in
  let diff := _create_diff_update image prev_frame_data in
  let fr := _create_full_rle_update image in
  idx <- _create_indexed_update image client_cached_pids ;;
  d_idx <- _create_diff_indexed_update image prev_frame_data
             client_cached_pids ;;
  ir <- _create_indexed_rle_update image client_cached_pids ;;
  ret [("FULL", Some full); ("DIFF", diff); ("FR", fr);
       ("IDX", idx); ("D_IDX", d_idx); ("IR", ir)].

(** [{k: v for k, v in candidates.items() if v is not None}]. *)
Fixpoint valid_candidates (candidates : list (string * option string))
  : list (string * string) :=
  match candidates with
  | [] => []
  | (k, Some v) :: rest => (k, v) :: valid_candidates rest
  | (_, None) :: rest => valid_candidates rest
  end.

(** [min(valid_candidates.items(), key=lambda item: len(item[1]))]. *)
Definition select_best (valid : list (string * string))
  : option (string * string) :=
  Py.min (fun item => String.length (snd item)) valid.

(** [[data[i:i + limit] for i in range(0, len(data), limit)]]. *)
Definition split_chunks (limit : nat) (data_to_send : string)
  : list string :=
  map (fun i => substring i limit data_to_send)
      (Py.range (String.length data_to_send) limit).

(** [IMAGE_FRAMES[frame_id] = frame], then the FIFO eviction. *)
Definition store_frame (frame_id : string) (frame : Frame)
           (frames : list (string * Frame)) : list (string * Frame) :=
  let frames' := OD.set String.eqb frame_id frame frames in
  if (MAX_FRAMES_TO_KEEP <? List.length frames')%nat
  then OD.popitem_first frames'
  else frames'.

(** The response line of a published frame, with the first chunk inline
    when the whole line stays below the chunk-size limit. *)
Definition new_frame_body (frame_id : string) (chunk_list : list string)
  : string :=
  let response_body := frame_id ++ ";" ++ Fmt.dec (List.length chunk_list) in
  match chunk_list with
  | c0 :: _ =>
      if (String.length response_body + 1 + String.length c0
          <? CHUNK_SIZE_LIMIT)%nat
      then response_body ++ ";" ++ c0
      else response_body
  | [] => response_body
  end.

(** The mode rotation at the top of the source function only chooses which
    producer supplies the buffer; it touches neither shared structure. *)
Definition _handle_new_frame (params : list (string * string)) (env : Env)
  : M Server response :=
  let client_cached_pids :=
    parse_cached_pids (params_get "cached_pids" params) in
  st <- get_store ;;
  let prev_frame := OD.last_value (IMAGE_FRAMES st) in
  let prev_frame_data := option_map image_data prev_frame in
  image <- of_outcome (produced env) ;;
  candidates <- lift_palette_manager
                  (candidates_of image prev_frame_data client_cached_pids) ;;
  match select_best (valid_candidates candidates) with
  | None => ret (send_response 204 "")
  | Some (best_format, data_to_send) =>
      let chunk_list := split_chunks CHUNK_SIZE_LIMIT data_to_send in
      let frame_id := uuid_hex env in
      st1 <- get_store ;;
      _ <- put_store
             {| palette_manager := palette_manager st1;
                IMAGE_FRAMES :=
                  store_frame frame_id
                    {| chunks := chunk_list; timestamp := now env;
                       image_data := image |}
                    (IMAGE_FRAMES st1) |} ;;
      wfile_write env (new_frame_body frame_id chunk_list)
  end.

(** [f"{chunk_index}"] for a Python integer. *)
Definition dec_Z (z : Z) : string :=
  match z with
  | Zneg p => "-" ++ Fmt.dec (Pos.to_nat p)
  | _ => Fmt.dec (Z.to_nat z)
  end.

(** [int(params.get('chunk', [0])[0])]: 0 when the parameter is absent,
    nothing ([ValueError]) when [int()] rejects its value. *)
Definition chunk_index_of (params : list (string * string)) : option Z :=
  match params_get "chunk" params with
  | None => Some 0%Z
  | Some s => Py.int s
  end.

(** The body of [_handle_get_chunk] once both parameters are read. *)
Definition serve_chunk (frame_id : option string) (chunk_index : Z)
           (env : Env) : M Server response :=
  st <- get_store ;;
  let not_found := ret (send_response 404 "Frame or Chunk not found.") in
  match frame_id with
  | None | Some EmptyString => not_found
  | Some fid =>
      match OD.get String.eqb fid (IMAGE_FRAMES st) with
      | None => not_found
      | Some frame =>
          if ((0 <=? chunk_index)%Z
              && (chunk_index <? Z.of_nat (List.length (chunks frame)))%Z)%bool
          then
            wfile_write env
              (fid ++ ";" ++ dec_Z chunk_index ++ ";"
               ++ nth (Z.to_nat chunk_index) (chunks frame) "")
          else not_found
      end
  end.

Definition _handle_get_chunk (params : list (string * string)) (env : Env)
  : M Server response :=
  let frame_id := params_get "frame_id" params in
  chunk_index <- or_raise ValueError (chunk_index_of params) ;;
  serve_chunk frame_id chunk_index env.

Definition do_GET (params : list (string * string)) (env : Env)
           (st : Server) : response * Server :=
  let handler : M Server response :=
    match params_get "action" params with
    | Some action =>
        if String.eqb action "new_frame" then _handle_new_frame params env
        else if String.eqb action "get_chunk"
             then _handle_get_chunk params env
             else ret (send_response 400 "Invalid action.")
    | None => ret (send_response 400 "Invalid action.")
    end in
  match handler st with
  | (Ret r, st') => (r, st')
  | (Raise _, st') => (send_response 500 "Internal Server Error", st')
  end.

(* ====================================================================== *)
(** ** Notions used to state the properties *)
(* ====================================================================== *)

(** The palette id a call to [get_or_create_palette] hands back. *)
Definition returned_pid (r : outcome (nat * bool * list pixel))
  : option nat :=
  match r with
  | Ret (pid, _, _) => Some pid
  | Raise _ => None
  end.

Definition touch (r : outcome (nat * bool * list pixel)) (hist : list nat)
  : list nat :=
  match returned_pid r with
  | Some pid => pid :: hist
  | None => hist
  end.

(** A sequence of [get_or_create_palette] calls.  Next to the cache it
    returns the ids the calls handed back, the most recent one first: the
    record of which entry was touched (looked up or inserted) when. *)
Fixpoint pm_run (self : PaletteManager) (hist : list nat)
         (calls : list (list pixel)) : PaletteManager * list nat :=
  match calls with
  | [] => (self, hist)
  | unique_colors :: rest =>
      let (r, self') := get_or_create_palette unique_colors self in
      pm_run self' (touch r hist) rest
  end.

(** How many calls ago [pid] was last touched (0 = by the latest call). *)
Fixpoint age (hist : list nat) (pid : nat) : nat :=
  match hist with
  | [] => 0
  | p :: older => if (p =? pid)%nat then 0 else S (age older pid)
  end.

(** [a] comes before [b] in the cache order only if [a] was touched
    longer ago than [b]. *)
Definition older_than (hist : list nat) (a b : nat) : Prop :=
  age hist b < age hist a.

(** What holds of every cache built by calls from the empty cache. *)
Record pm_inv (self : PaletteManager) (hist : list nat) : Prop := {
  inv_size : List.length (palettes self) <= max_size self;
  inv_fresh : forall k, In k (OD.keys (palettes self)) ->
                        k < next_palette_id self;
  inv_touched : forall k, In k (OD.keys (palettes self)) -> In k hist;
  inv_order : StronglySorted (older_than hist) (OD.keys (palettes self));
  inv_data : forall k d, In (k, d) (palettes self) ->
                         colors_list d = colors d;
  inv_colors : forall k1 d1 k2 d2,
      In (k1, d1) (palettes self) -> In (k2, d2) (palettes self) ->
      colors d1 = colors d2 -> k1 = k2
}.

Definition pixel_eq_dec (p q : pixel) : {p = q} + {p <> q}.
Proof. decide equality; [|decide equality]; apply Byte.byte_eq_dec. Defined.

(** The number of distinct colors of a buffer. *)
Definition distinct_colors (image : PixelBuffer) : nat :=
  List.length (nodup pixel_eq_dec (reshape image)).

(** Shorthands for the two outcomes of [get_or_create_palette]. *)
Definition new_entry (unique_colors : list pixel) : PaletteData :=
  {| colors := unique_colors; colors_list := unique_colors |}.

Definition with_palettes (self : PaletteManager)
           (entries : list (nat * PaletteData)) (next : nat)
  : PaletteManager :=
  {| palettes := entries; max_size := max_size self;
     next_palette_id := next |}.

Definition matches (unique_colors : list pixel) (e : nat * PaletteData)
  : bool :=
  colors_eqb (colors (snd e)) unique_colors.

Definition pixel_lt (p q : pixel) : Prop := pixel_ltb p q = true.

(** The keys of the [candidates] dictionary in the order the source lists
    them, and in the order of the specification's encoder table
    (FULL, FULL_RLE, DIFF, INDEXED, DIFF_INDEXED, INDEXED_RLE). *)
Definition code_order : list string :=
  ["FULL"; "DIFF"; "FR"; "IDX"; "D_IDX"; "IR"].

Definition table_order : list string :=
  ["FULL"; "FR"; "DIFF"; "IDX"; "D_IDX"; "IR"].

(** Position of a key in an order (the length of the order if absent). *)
Fixpoint rank (order : list string) (k : string) : nat :=
  match order with
  | [] => 0
  | k' :: rest => if String.eqb k' k then 0 else S (rank rest k)
  end.

(** The selection rule with ties broken by a given order of the keys. *)
Definition selects_by (order : list string) (image : PixelBuffer)
           (prev_frame_data : option PixelBuffer)
           (client_cached_pids : list Z) (self : PaletteManager) : Prop :=
  forall cands self' best_format data_to_send,
    candidates_of image prev_frame_data client_cached_pids self
    = (Ret cands, self') ->
    select_best (valid_candidates cands) = Some (best_format, data_to_send) ->
    In (best_format, data_to_send) (valid_candidates cands)
    /\ (forall k v, In (k, v) (valid_candidates cands) ->
                    String.length data_to_send <= String.length v)
    /\ (forall k v, In (k, v) (valid_candidates cands) ->
                    String.length v = String.length data_to_send ->
                    rank order best_format <= rank order k).

(** "A request that fails leaves both structures as they were." *)
Definition failure_leaves_state (params : list (string * string))
           (env : Env) (st : Server) : Prop :=
  status (fst (do_GET params env st)) = 500 ->
  snd (do_GET params env st) = st.


(** *** Concrete inputs *)

Definition black : pixel := (x00, x00, x00).
Definition white : pixel := (xff, xff, xff).

(** The two-pixel buffer of the end-to-end scenario. *)
Definition scenario_image : PixelBuffer := [[black; white]].

Definition scenario_env (ok : bool) : Env :=
  {| produced := Ret scenario_image; uuid_hex := "0123abcd";
     now := 0%Z; wfile_ok := ok |}.

Definition new_frame_params : list (string * string) :=
  [("action", "new_frame")].

(** One row of 17 pixels: 15 of one color, then 2 of another; the previous
    buffer differs from it at columns 0 and 16 only. *)
Definition color_a : pixel := (x01, x02, x03).
Definition color_b : pixel := (x0a, x0b, x0c).

Definition tie_image : PixelBuffer :=
  [(repeat color_a 15 ++ [color_b; color_b])%list].

Definition tie_prev : PixelBuffer :=
  [(color_b :: repeat color_a 14 ++ [color_b; color_a])%list].

(** The candidates of the scenario, computed on a fresh palette cache with
    an empty client hint and no previous frame. *)
Definition scenario_candidates
  : outcome (list (string * option string)) * PaletteManager :=
  candidates_of scenario_image None []
                (PaletteManager_init MAX_PALETTES_TO_KEEP).

(** The scenario as the specification tells it: INDEXED is strictly shorter
    than FULL and FULL_RLE, and is selected. *)
Definition scenario_as_stated : Prop :=
  exists cands self' full,
    scenario_candidates = (Ret cands, self')
    /\ OD.get String.eqb "IDX" cands = Some (Some "I|0|000000,ffffff|01")
    /\ OD.get String.eqb "FULL" cands = Some (Some full)
    /\ OD.get String.eqb "FR" cands = Some (Some "FR|000000,1|ffffff,1")
    /\ String.length "I|0|000000,ffffff|01" < String.length full
    /\ String.length "I|0|000000,ffffff|01"
       < String.length "FR|000000,1|ffffff,1"
    /\ select_best (valid_candidates cands)
       = Some ("IDX", "I|0|000000,ffffff|01").

(** The candidates of [tie_image] against [tie_prev]. *)
Definition tie_candidates : list (string * option string) :=
  [("FULL",
    Some ("F|AQIDAQIDAQIDAQIDAQIDAQIDAQIDAQIDAQIDAQIDAQIDAQIDAQIDAQIDAQID"
          ++ "CgsMCgsM"));
   ("DIFF", Some "D|0:010203|10:0a0b0c");
   ("FR", Some "FR|010203,f|0a0b0c,2");
   ("IDX", Some "I|0|010203,0a0b0c|00000000000000011");
   ("D_IDX", Some "DI|0|010203,0a0b0c|0:0|10:1");
   ("IR", Some "IR|0|010203,0a0b0c|0,f|1,2")].

(** *** Notions for the further properties *)

(** A list of runs as [_rle_encode] writes them: every run has at least
    one element and two neighbouring runs carry different symbols. *)
Fixpoint runs_ok {A : Type} (encoded : list (A * nat)) : Prop :=
  match encoded with
  | [] => True
  | (a, n) :: rest =>
      1 <= n
      /\ match rest with
         | [] => True
         | (b, _) :: _ => a <> b
         end
      /\ runs_ok rest
  end.

(** Reading back a two-digit hexadecimal channel value and a six-digit
    color, with the hexadecimal reader of the standard library. *)
Definition unhex2 (s : string) : option byte :=
  Byte.of_N (HexString.Raw.to_N s 0%N).

Definition unhex_color (s : string) : option pixel :=
  match unhex2 (substring 0 2 s), unhex2 (substring 2 2 s),
        unhex2 (substring 4 2 s) with
  | Some r, Some g, Some b => Some (r, g, b)
  | _, _, _ => None
  end.

(** A run of pixels as [FULL_RLE] writes it. *)
Definition pixel_run (run : pixel * nat) : string :=
  hex_color (fst run) ++ "," ++ Fmt.hex (snd run).

(** Two buffers of the same shape: as many rows, and rows of equal
    width. *)
Definition same_shape (a b : PixelBuffer) : Prop :=
  Forall2 (fun row row' => List.length row = List.length row') a b.

(** Row-major scan order on coordinates (y, x). *)
Definition scan_before (c d : nat * nat) : Prop :=
  fst c < fst d \/ (fst c = fst d /\ snd c < snd d).

(** The server after a sequence of requests, each with what the outside
    world contributed to it. *)
Fixpoint serve (st : Server)
         (requests : list (list (string * string) * Env)) : Server :=
  match requests with
  | [] => st
  | (params, env) :: rest => serve (snd (do_GET params env st)) rest
  end.

(** A palette cache of the configured capacity that some sequence of touches
    explains, and a server whose two structures are within their bounds. *)
Definition pm_ok (self : PaletteManager) : Prop :=
  max_size self = MAX_PALETTES_TO_KEEP /\ exists hist, pm_inv self hist.

Definition server_ok (st : Server) : Prop :=
  List.length (IMAGE_FRAMES st) <= MAX_FRAMES_TO_KEEP
  /\ pm_ok (palette_manager st).




(* ====================================================================== *)
(** * Properties *)
(* ====================================================================== *)

(* ====================================================================== *)
(** ** Properties of the RLE primitive *)
(* ====================================================================== *)

Section RLE_facts.
Context {A : Type}.
Variable eqb : A -> A -> bool.
Hypothesis eqb_sound : forall x y, eqb x y = true -> x = y.

Lemma rle_expand_app (e1 e2 : list (A * nat)) :
  rle_expand (e1 ++ e2)%list = (rle_expand e1 ++ rle_expand e2)%list.
Proof. unfold rle_expand. apply flat_map_app. Qed.

Lemma run_length_sum_app (e1 e2 : list (A * nat)) :
  run_length_sum (e1 ++ e2)%list = run_length_sum e1 + run_length_sum e2.
Proof. unfold run_length_sum. now rewrite map_app, list_sum_app. Qed.

Lemma rle_loop_expand (it : list A) :
  forall prev_val count encoded,
    rle_expand (rle_loop eqb it prev_val count encoded)
    = (rle_expand encoded ++ repeat prev_val count ++ it)%list.
Proof.
  induction it as [|val it IH]; intros prev_val count encoded; simpl.
  - rewrite rle_expand_app. simpl. now rewrite !app_nil_r.
  - destruct (eqb val prev_val) eqn:E.
    + apply eqb_sound in E. subst val. rewrite IH.
      f_equal. change (prev_val :: it) with ([prev_val] ++ it)%list.
      rewrite app_assoc. f_equal. simpl. apply repeat_cons.
    + rewrite IH, rle_expand_app. simpl.
      now rewrite app_nil_r, <- app_assoc.
Qed.

Lemma rle_loop_sum (it : list A) :
  forall prev_val count encoded,
    run_length_sum (rle_loop eqb it prev_val count encoded)
    = run_length_sum encoded + count + List.length it.
Proof.
  induction it as [|val it IH]; intros prev_val count encoded; simpl.
  - rewrite run_length_sum_app. unfold run_length_sum. simpl. lia.
  - destruct (eqb val prev_val).
    + rewrite IH. lia.
    + rewrite IH, run_length_sum_app. unfold run_length_sum. simpl. lia.
Qed.

(** C6. Expanding the output of [_rle_encode] gives back the input, the run
    lengths add up to the length of the input, and the empty sequence is
    encoded as the empty list of pairs. *)
Theorem rle_roundtrip (data_stream : list A) :
  rle_expand (_rle_encode eqb data_stream) = data_stream
  /\ run_length_sum (_rle_encode eqb data_stream) = List.length data_stream
  /\ _rle_encode eqb [] = [].
Proof.
  destruct data_stream as [|prev_val it]; simpl.
  - repeat split.
  - rewrite rle_loop_expand, rle_loop_sum. repeat split.
Qed.

End RLE_facts.

Lemma rle_roundtrip_witness :
  rle_expand (_rle_encode Nat.eqb [7; 7; 3; 7]) = [7; 7; 3; 7]
  /\ run_length_sum (_rle_encode Nat.eqb [7; 7; 3; 7]) = 4
  /\ _rle_encode Nat.eqb [] = [].
Proof.
  apply (rle_roundtrip Nat.eqb (fun x y => proj1 (Nat.eqb_eq x y)) [7; 7; 3; 7]).
Defined.

(* ====================================================================== *)
(** ** Chunking *)
(* ====================================================================== *)

Module Chunks.

Lemma substring_all (s : string) :
  forall m, String.length s <= m -> substring 0 m s = s.
Proof.
  induction s as [|c s IH]; intros [|m] H; simpl in *; try reflexivity;
    try lia.
  f_equal. apply IH. lia.
Qed.

Lemma substring_glue (s : string) :
  forall a b, substring 0 a s ++ substring a b s = substring 0 (a + b) s.
Proof.
  induction s as [|c s IH]; intros a b.
  - destruct a, b; reflexivity.
  - destruct a as [|a]; simpl.
    + destruct b; reflexivity.
    + f_equal. apply IH.
Qed.

Lemma length_substring (s : string) :
  forall i m,
    String.length (substring i m s) = Nat.min m (String.length s - i).
Proof.
  induction s as [|c s IH]; intros i m.
  - destruct i, m; reflexivity.
  - destruct i as [|i]; simpl.
    + destruct m as [|m]; simpl; [reflexivity|].
      rewrite IH. now rewrite Nat.sub_0_r.
    + apply IH.
Qed.

Lemma concat_all_app (xs ys : list string) :
  Fmt.concat_all (xs ++ ys)%list = Fmt.concat_all xs ++ Fmt.concat_all ys.
Proof.
  unfold Fmt.concat_all.
  induction xs as [|x xs IH]; simpl; [reflexivity|].
  rewrite IH. clear IH.
  induction x as [|c x IHx]; simpl; [reflexivity|]. now rewrite IHx.
Qed.

Lemma append_empty_r (s : string) : s ++ "" = s.
Proof. induction s as [|c s IH]; simpl; [reflexivity|now rewrite IH]. Qed.

(** The first [k] chunks together are the first [k * limit] characters. *)
Lemma concat_prefix (limit : nat) (data : string) (k : nat) :
  Fmt.concat_all (map (fun i => substring i limit data)
                      (map (fun j => j * limit) (seq 0 k)))
  = substring 0 (k * limit) data.
Proof.
  induction k as [|k IH].
  - simpl. destruct data; reflexivity.
  - rewrite seq_S, !map_app, concat_all_app, IH. simpl.
    rewrite append_empty_r, substring_glue. f_equal. lia.
Qed.

Lemma range_count (stop step : nat) :
  0 < step ->
  let c := (stop + step - 1) / step in
  stop <= c * step /\ (forall j, j < c -> j * step < stop).
Proof.
  intros Hs c.
  assert (Hdm := Nat.div_mod_eq (stop + step - 1) step).
  assert (Hlt := Nat.mod_upper_bound (stop + step - 1) step ltac:(lia)).
  fold c in Hdm. split.
  - nia.
  - intros j Hj. nia.
Qed.

Lemma In_range (stop step i : nat) :
  0 < step -> In i (Py.range stop step) -> i < stop.
Proof.
  intros Hs Hin. unfold Py.range in Hin.
  apply in_map_iff in Hin. destruct Hin as [j [<- Hj]].
  apply in_seq in Hj. apply (range_count stop step Hs). lia.
Qed.

Lemma split_chunks_concat (limit : nat) (data : string) :
  0 < limit -> Fmt.concat_all (split_chunks limit data) = data.
Proof.
  intros Hl. unfold split_chunks, Py.range.
  rewrite concat_prefix. apply substring_all.
  apply (range_count (String.length data) limit Hl).
Qed.

Lemma split_chunks_bounds (limit : nat) (data : string) :
  0 < limit ->
  Forall (fun c => 1 <= String.length c <= limit) (split_chunks limit data).
Proof.
  intros Hl. apply Forall_forall. intros c Hc.
  unfold split_chunks in Hc. apply in_map_iff in Hc.
  destruct Hc as [i [<- Hi]]. apply In_range in Hi; [|exact Hl].
  rewrite length_substring. lia.
Qed.

Lemma split_chunks_length (limit : nat) (data : string) :
  List.length (split_chunks limit data)
  = (String.length data + limit - 1) / limit.
Proof.
  unfold split_chunks, Py.range. now rewrite !length_map, length_seq.
Qed.

Lemma split_chunks_nth (limit : nat) (data : string) (k : nat) :
  k < List.length (split_chunks limit data) ->
  nth k (split_chunks limit data) "" = substring (k * limit) limit data.
Proof.
  intros Hk. rewrite split_chunks_length in Hk.
  unfold split_chunks, Py.range.
  rewrite nth_indep with (d' := substring (0 * limit) limit data)
    by (now rewrite !length_map, length_seq).
  rewrite map_map.
  rewrite (map_nth (fun j => substring (j * limit) limit data)).
  now rewrite seq_nth.
Qed.

Lemma split_chunks_exact (limit : nat) (data : string) :
  0 < limit ->
  String.length data mod limit = 0 ->
  List.length (split_chunks limit data) = String.length data / limit
  /\ Forall (fun c => String.length c = limit) (split_chunks limit data).
Proof.
  intros Hl Hmod.
  assert (Hdm := Nat.div_mod_eq (String.length data) limit).
  rewrite Hmod, Nat.add_0_r in Hdm.
  assert (Hc : (String.length data + limit - 1) / limit
               = String.length data / limit).
  { set (q := String.length data / limit) in *.
    symmetry. apply (Nat.div_unique _ _ _ (limit - 1)); [lia|]. nia. }
  split.
  - now rewrite split_chunks_length.
  - apply Forall_forall. intros c Hin.
    unfold split_chunks, Py.range in Hin. rewrite Hc in Hin.
    apply in_map_iff in Hin. destruct Hin as [i [<- Hi]].
    apply in_map_iff in Hi. destruct Hi as [j [<- Hj]].
    apply in_seq in Hj. rewrite length_substring.
    set (q := String.length data / limit) in *. nia.
Qed.

End Chunks.

(* ====================================================================== *)
(** ** Dictionary facts *)
(* ====================================================================== *)

Section OD_facts.
Context {K V : Type}.
Variable keqb : K -> K -> bool.
Hypothesis keqb_spec : forall a b, keqb a b = true <-> a = b.

Lemma keqb_refl (k : K) : keqb k k = true.
Proof. now apply keqb_spec. Qed.

Lemma od_get_set_same (k : K) (v : V) (d : list (K * V)) :
  OD.get keqb k (OD.set keqb k v d) = Some v.
Proof.
  induction d as [|[k' v'] d IH]; simpl.
  - now rewrite keqb_refl.
  - destruct (keqb k' k) eqn:E; simpl; rewrite E; [reflexivity|exact IH].
Qed.

Lemma od_set_fresh (k : K) (v : V) (d : list (K * V)) :
  OD.get keqb k d = None -> OD.set keqb k v d = (d ++ [(k, v)])%list.
Proof.
  induction d as [|[k' v'] d IH]; simpl; intros H; [reflexivity|].
  destruct (keqb k' k); [discriminate|]. now rewrite IH.
Qed.

Lemma od_set_length_present (k : K) (v : V) (d : list (K * V)) :
  OD.get keqb k d <> None ->
  List.length (OD.set keqb k v d) = List.length d.
Proof.
  induction d as [|[k' v'] d IH]; simpl; intros H; [congruence|].
  destruct (keqb k' k); simpl; [reflexivity|]. now rewrite IH.
Qed.

Lemma od_get_app_fresh (k : K) (v : V) (d : list (K * V)) :
  OD.get keqb k d = None -> OD.get keqb k (d ++ [(k, v)])%list = Some v.
Proof.
  induction d as [|[k' v'] d IH]; simpl; intros H.
  - now rewrite keqb_refl.
  - destruct (keqb k' k); [discriminate|]. now apply IH.
Qed.

Lemma od_get_In (k : K) (v : V) (d : list (K * V)) :
  OD.get keqb k d = Some v -> In (k, v) d.
Proof.
  induction d as [|[k' v'] d IH]; simpl; intros H; [discriminate|].
  destruct (keqb k' k) eqn:E.
  - apply keqb_spec in E. left. congruence.
  - right. now apply IH.
Qed.

Lemma od_get_None_keys (k : K) (d : list (K * V)) :
  OD.get keqb k d = None <-> ~ In k (OD.keys d).
Proof.
  induction d as [|[k' v'] d IH]; simpl.
  - tauto.
  - destruct (keqb k' k) eqn:E.
    + apply keqb_spec in E. split; [discriminate|]. intros H. tauto.
    + rewrite IH. split; [|tauto]. intros H [H1|H1]; [|tauto].
      apply keqb_spec in H1. congruence.
Qed.

End OD_facts.

Lemma store_frame_get (frame_id : string) (frame : Frame)
      (frames : list (string * Frame)) :
  List.length frames <= MAX_FRAMES_TO_KEEP ->
  OD.get String.eqb frame_id (store_frame frame_id frame frames) = Some frame.
Proof.
  intros Hlen. unfold store_frame.
  destruct (OD.get String.eqb frame_id frames) eqn:G.
  - rewrite (od_set_length_present String.eqb) by congruence.
    apply Nat.leb_le in Hlen. rewrite Nat.ltb_antisym, Hlen. simpl.
    apply (od_get_set_same String.eqb String.eqb_eq).
  - rewrite (od_set_fresh String.eqb) by exact G.
    destruct (_ <? _)%nat eqn:L.
    + destruct frames as [|[k v] frames]; [discriminate L|]. simpl.
      simpl in G. destruct (String.eqb k frame_id); [discriminate|].
      now apply (od_get_app_fresh String.eqb String.eqb_eq).
    + now apply (od_get_app_fresh String.eqb String.eqb_eq).
Qed.

Lemma store_frame_bounded (frame_id : string) (frame : Frame)
      (frames : list (string * Frame)) :
  List.length frames <= MAX_FRAMES_TO_KEEP ->
  List.length (store_frame frame_id frame frames) <= MAX_FRAMES_TO_KEEP.
Proof.
  intros Hlen. unfold store_frame.
  destruct (_ <? _)%nat eqn:L.
  - destruct (OD.get String.eqb frame_id frames) eqn:G.
    + rewrite (od_set_length_present String.eqb) in L by congruence.
      apply Nat.ltb_lt in L. lia.
    + rewrite (od_set_fresh String.eqb) by exact G.
      destruct frames; simpl in *; [lia|]. rewrite length_app. simpl. lia.
  - apply Nat.ltb_ge in L. exact L.
Qed.

(** What [_handle_new_frame] does once a payload has been selected. *)
Lemma handle_new_frame_selected (params : list (string * string))
      (env : Env) (st : Server) (image : PixelBuffer)
      (cands : list (string * option string)) (pm' : PaletteManager)
      (best_format data_to_send : string) :
  produced env = Ret image ->
  candidates_of image
    (option_map image_data (OD.last_value (IMAGE_FRAMES st)))
    (parse_cached_pids (params_get "cached_pids" params))
    (palette_manager st) = (Ret cands, pm') ->
  select_best (valid_candidates cands) = Some (best_format, data_to_send) ->
  let chunk_list := split_chunks CHUNK_SIZE_LIMIT data_to_send in
  _handle_new_frame params env st
  = wfile_write env (new_frame_body (uuid_hex env) chunk_list)
      {| palette_manager := pm';
         IMAGE_FRAMES :=
           store_frame (uuid_hex env)
             {| chunks := chunk_list; timestamp := now env;
                image_data := image |}
             (IMAGE_FRAMES st) |}.
Proof.
  intros Hp Hc Hs. unfold _handle_new_frame, bind, get_store, of_outcome,
    lift_palette_manager, put_store.
  rewrite Hp, Hc. cbn beta iota. rewrite Hs. reflexivity.
Qed.

Lemma wfile_write_store {S : Type} (env : Env) (text : string) (s : S) :
  snd (wfile_write env text s) = s.
Proof. unfold wfile_write. now destruct (wfile_ok env). Qed.

(** C8. The chunk list stored under the new [frame_id] is the list of
    consecutive slices of the selected payload, each between one and
    [CHUNK_SIZE_LIMIT] characters long; concatenated in order the chunks give
    back the payload; and when the payload length is a multiple of the limit
    every chunk is full, so there is no empty chunk at the end.  The same
    holds of [split_chunks] at every positive limit. *)
Theorem chunks_reconstruct_payload
        (params : list (string * string)) (env : Env) (st : Server)
        (image : PixelBuffer) (cands : list (string * option string))
        (pm' : PaletteManager) (best_format data_to_send : string)
        (Hstore : List.length (IMAGE_FRAMES st) <= MAX_FRAMES_TO_KEEP)
        (Hproduced : produced env = Ret image)
        (Hcands : candidates_of image
                    (option_map image_data (OD.last_value (IMAGE_FRAMES st)))
                    (parse_cached_pids (params_get "cached_pids" params))
                    (palette_manager st) = (Ret cands, pm'))
        (Hbest : select_best (valid_candidates cands)
                 = Some (best_format, data_to_send)) :
  (exists frame,
      OD.get String.eqb (uuid_hex env)
             (IMAGE_FRAMES (snd (_handle_new_frame params env st)))
      = Some frame
      /\ chunks frame = split_chunks CHUNK_SIZE_LIMIT data_to_send)
  /\ forall limit, 0 < limit ->
       let chunk_list := split_chunks limit data_to_send in
       (forall k, k < List.length chunk_list ->
                  nth k chunk_list "" = substring (k * limit) limit data_to_send)
       /\ Forall (fun c => 1 <= String.length c <= limit) chunk_list
       /\ Fmt.concat_all chunk_list = data_to_send
       /\ (String.length data_to_send mod limit = 0 ->
           List.length chunk_list = String.length data_to_send / limit
           /\ Forall (fun c => String.length c = limit) chunk_list).
Proof.
  split.
  - rewrite (handle_new_frame_selected params env st image cands pm'
               best_format data_to_send Hproduced Hcands Hbest).
    rewrite wfile_write_store. simpl.
    eexists. split; [apply store_frame_get; exact Hstore|reflexivity].
  - intros limit Hl chunk_list. repeat split.
    + intros k Hk. now apply Chunks.split_chunks_nth.
    + now apply Chunks.split_chunks_bounds.
    + now apply Chunks.split_chunks_concat.
    + now apply Chunks.split_chunks_exact.
    + now apply Chunks.split_chunks_exact.
Qed.

(* ====================================================================== *)
(** ** The palette cache *)
(* ====================================================================== *)

Lemma pixel_eqb_eq (p q : pixel) : pixel_eqb p q = true <-> p = q.
Proof.
  destruct p as [[r1 g1] b1], q as [[r2 g2] b2]. unfold pixel_eqb.
  rewrite !andb_true_iff. split.
  - intros [[H1 H2] H3].
    apply Byte.byte_dec_bl in H1, H2, H3. congruence.
  - intros H. injection H as -> -> ->.
    now rewrite !Byte.byte_dec_lb.
Qed.

Lemma colors_eqb_eq (a b : list pixel) : colors_eqb a b = true <-> a = b.
Proof.
  revert b. induction a as [|p a IH]; intros [|q b]; simpl;
    try (split; [discriminate|discriminate]); [tauto|].
  rewrite andb_true_iff, pixel_eqb_eq, IH. split.
  - intros [-> ->]. reflexivity.
  - intros H. injection H as -> ->. tauto.
Qed.

Section Sorted_facts.
Context {A : Type}.
Variable R : A -> A -> Prop.

Lemma ss_snoc (l : list A) (x : A) :
  StronglySorted R l -> Forall (fun a => R a x) l ->
  StronglySorted R (l ++ [x])%list.
Proof.
  induction 1 as [|a l Hl IH Ha]; intros Hx; simpl.
  - repeat constructor.
  - inversion Hx; subst. constructor; [now apply IH|].
    apply Forall_app. split; [exact Ha|]. now repeat constructor.
Qed.

Lemma ss_mono (R' : A -> A -> Prop) (l : list A) :
  (forall a b, In a l -> In b l -> R a b -> R' a b) ->
  StronglySorted R l -> StronglySorted R' l.
Proof.
  intros Himp H. induction H as [|a l Hl IH Ha]; constructor.
  - apply IH. intros x y Hx Hy. apply Himp; now right.
  - rewrite Forall_forall in *. intros b Hb.
    apply Himp; [now left|now right|now apply Ha].
Qed.

Lemma ss_drop_middle (l1 l2 : list A) (a : A) :
  StronglySorted R (l1 ++ a :: l2)%list -> StronglySorted R (l1 ++ l2)%list.
Proof.
  induction l1 as [|b l1 IH]; simpl; intros H; inversion H; subst.
  - assumption.
  - constructor; [now apply IH|].
    rewrite Forall_forall in *. intros x Hx. apply H3.
    apply in_app_iff in Hx. apply in_app_iff. simpl. tauto.
Qed.

Lemma ss_tl (l : list A) : StronglySorted R l -> StronglySorted R (tl l).
Proof. destruct 1; [constructor|assumption]. Qed.

Lemma ss_strict_NoDup (l : list A) :
  (forall a, ~ R a a) -> StronglySorted R l -> NoDup l.
Proof.
  intros Hirr H. induction H as [|a l Hl IH Ha]; constructor; [|exact IH].
  intros Hin. rewrite Forall_forall in Ha. exact (Hirr a (Ha a Hin)).
Qed.

End Sorted_facts.

Lemma age_head (hist : list nat) (pid : nat) : age (pid :: hist) pid = 0.
Proof. simpl. now rewrite Nat.eqb_refl. Qed.

Lemma age_other (hist : list nat) (pid k : nat) :
  k <> pid -> age (pid :: hist) k = S (age hist k).
Proof.
  intros H. simpl. destruct (Nat.eqb_spec pid k); [congruence|reflexivity].
Qed.

Lemma older_than_irrefl (hist : list nat) (a : nat) : ~ older_than hist a a.
Proof. unfold older_than. lia. Qed.

(** Touching [pid] keeps the relative order of all other entries and makes
    [pid] the most recently used one. *)
Lemma order_after_touch (hist : list nat) (ks : list nat) (pid : nat) :
  ~ In pid ks ->
  StronglySorted (older_than hist) ks ->
  StronglySorted (older_than (pid :: hist)) (ks ++ [pid])%list.
Proof.
  intros Hnot Hs. apply ss_snoc.
  - apply (ss_mono (older_than hist)); [|exact Hs].
    intros a b Ha Hb Hab. unfold older_than in *.
    rewrite !age_other by (intros ->; contradiction). lia.
  - apply Forall_forall. intros a Ha. unfold older_than.
    rewrite age_head, age_other by (intros ->; contradiction). lia.
Qed.

Section OD_split.
Context {V : Type}.

Lemma od_get_middle (k : nat) (v : V) (l1 l2 : list (nat * V)) :
  ~ In k (OD.keys l1) ->
  OD.get Nat.eqb k (l1 ++ (k, v) :: l2)%list = Some v.
Proof.
  induction l1 as [|[k' v'] l1 IH]; simpl; intros H.
  - now rewrite Nat.eqb_refl.
  - destruct (Nat.eqb_spec k' k); [tauto|]. apply IH. tauto.
Qed.

Lemma od_remove_middle (k : nat) (v : V) (l1 l2 : list (nat * V)) :
  ~ In k (OD.keys l1) ->
  OD.remove Nat.eqb k (l1 ++ (k, v) :: l2)%list = (l1 ++ l2)%list.
Proof.
  induction l1 as [|[k' v'] l1 IH]; simpl; intros H.
  - now rewrite Nat.eqb_refl.
  - destruct (Nat.eqb_spec k' k); [tauto|]. rewrite IH; tauto.
Qed.

Lemma od_move_to_end_middle (k : nat) (v : V) (l1 l2 : list (nat * V)) :
  ~ In k (OD.keys l1) ->
  OD.move_to_end Nat.eqb k (l1 ++ (k, v) :: l2)%list
  = (l1 ++ l2 ++ [(k, v)])%list.
Proof.
  intros H. unfold OD.move_to_end.
  rewrite od_get_middle, od_remove_middle by exact H.
  now rewrite app_assoc.
Qed.

Lemma keys_app (l1 l2 : list (nat * V)) :
  OD.keys (l1 ++ l2)%list = (OD.keys l1 ++ OD.keys l2)%list.
Proof. apply map_app. Qed.

Lemma In_keys (k : nat) (v : V) (d : list (nat * V)) :
  In (k, v) d -> In k (OD.keys d).
Proof. intros H. apply (in_map fst) in H. exact H. Qed.

End OD_split.

(** A lookup that finds an entry: the entry moves to the end. *)
Lemma goc_hit (self : PaletteManager) (unique_colors : list pixel)
      (pid : nat) (data : PaletteData) :
  NoDup (OD.keys (palettes self)) ->
  find (matches unique_colors) (palettes self) = Some (pid, data) ->
  exists l1 l2,
    palettes self = (l1 ++ (pid, data) :: l2)%list
    /\ colors data = unique_colors
    /\ get_or_create_palette unique_colors self
       = (Ret (pid, false, colors_list data),
          with_palettes self (l1 ++ l2 ++ [(pid, data)])%list
                        (next_palette_id self)).
Proof.
  intros Hnd Hfind.
  destruct (find_some _ _ Hfind) as [Hin Hm].
  apply colors_eqb_eq in Hm. simpl in Hm.
  destruct (in_split _ _ Hin) as [l1 [l2 Hsplit]].
  exists l1, l2. split; [exact Hsplit|]. split; [exact Hm|].
  assert (Hl1 : ~ In pid (OD.keys l1)).
  { rewrite Hsplit, keys_app in Hnd. simpl in Hnd.
    apply NoDup_remove_2 in Hnd. rewrite in_app_iff in Hnd. tauto. }
  unfold get_or_create_palette. fold (matches unique_colors).
  rewrite Hfind. unfold with_palettes. rewrite Hsplit.
  now rewrite od_move_to_end_middle.
Qed.

(** A lookup that finds nothing: a new entry is appended, and the first
    entry is dropped when the cache was full. *)
Lemma goc_miss (self : PaletteManager) (unique_colors : list pixel) :
  (forall k, In k (OD.keys (palettes self)) -> k < next_palette_id self) ->
  find (matches unique_colors) (palettes self) = None ->
  let pid := next_palette_id self in
  let e := (pid, new_entry unique_colors) in
  get_or_create_palette unique_colors self
  = if (List.length (palettes self) <? max_size self)%nat
    then (Ret (pid, true, unique_colors),
          with_palettes self (palettes self ++ [e])%list (S pid))
    else match palettes self with
         | [] => (Raise KeyError, with_palettes self [] (S pid))
         | _ :: rest =>
             (Ret (pid, true, unique_colors),
              with_palettes self (rest ++ [e])%list (S pid))
         end.
Proof.
  intros Hfresh Hfind pid e. subst e.
  assert (Hget : OD.get Nat.eqb pid (palettes self) = None).
  { apply (od_get_None_keys Nat.eqb Nat.eqb_eq). intros Hin.
    apply Hfresh in Hin. unfold pid in Hin. lia. }
  unfold get_or_create_palette. fold (matches unique_colors).
  rewrite Hfind. fold pid. fold (new_entry unique_colors).
  rewrite (od_set_fresh Nat.eqb) by exact Hget.
  rewrite length_app. simpl List.length.
  destruct (Nat.ltb_spec (List.length (palettes self)) (max_size self))
    as [Hlt|Hge].
  - replace (max_size self <? List.length (palettes self) + 1)%nat
      with false by (symmetry; apply Nat.ltb_ge; lia).
    rewrite (od_get_app_fresh Nat.eqb Nat.eqb_eq) by exact Hget.
    reflexivity.
  - replace (max_size self <? List.length (palettes self) + 1)%nat
      with true by (symmetry; apply Nat.ltb_lt; lia).
    destruct (palettes self) as [|[k0 d0] rest] eqn:Hp; simpl.
    + reflexivity.
    + simpl in Hget. destruct (k0 =? pid)%nat; [discriminate|].
      rewrite (od_get_app_fresh Nat.eqb Nat.eqb_eq) by exact Hget.
      reflexivity.
Qed.

Lemma pm_inv_NoDup (self : PaletteManager) (hist : list nat) :
  pm_inv self hist -> NoDup (OD.keys (palettes self)).
Proof.
  intros H. apply (ss_strict_NoDup (older_than hist)).
  - apply older_than_irrefl.
  - apply (inv_order _ _ H).
Qed.

Lemma pm_inv_init (size : nat) : pm_inv (PaletteManager_init size) [].
Proof.
  constructor; simpl; try (intros; contradiction); try lia. constructor.
Qed.

(** The cache after a hit. *)
Lemma pm_inv_after_hit (self : PaletteManager) (hist : list nat)
      (l1 l2 : list (nat * PaletteData)) (pid : nat) (data : PaletteData) :
  pm_inv self hist ->
  palettes self = (l1 ++ (pid, data) :: l2)%list ->
  pm_inv (with_palettes self (l1 ++ l2 ++ [(pid, data)])%list
                        (next_palette_id self))
         (pid :: hist).
Proof.
  intros Hinv Hp.
  assert (Hnd := pm_inv_NoDup _ _ Hinv).
  destruct Hinv as [Hsize Hfresh Htouched Horder Hdata Hcolors].
  rewrite Hp in *.
  assert (Hin : forall e, In e (l1 ++ l2 ++ [(pid, data)])%list
                          <-> In e (l1 ++ (pid, data) :: l2)%list).
  { intros e. rewrite !in_app_iff. simpl. tauto. }
  assert (Hink : forall k, In k (OD.keys (l1 ++ l2 ++ [(pid, data)])%list)
                           -> In k (OD.keys (l1 ++ (pid, data) :: l2)%list)).
  { intros k. unfold OD.keys. rewrite !map_app, !in_app_iff. simpl. tauto. }
  constructor; simpl.
  - rewrite !length_app in *. simpl in *. lia.
  - intros k Hk. apply Hfresh, Hink, Hk.
  - intros k Hk. right. apply Htouched, Hink, Hk.
  - rewrite app_assoc, keys_app. simpl.
    rewrite keys_app in Hnd, Horder. simpl in Hnd, Horder.
    rewrite keys_app. apply order_after_touch.
    + now apply NoDup_remove_2 in Hnd.
    + now apply ss_drop_middle in Horder.
  - intros k d Hk. apply (Hdata k). now apply Hin.
  - intros k1 d1 k2 d2 H1 H2. apply Hcolors; now apply Hin.
Qed.

(** The cache after a miss: [kept] is what remains of the old entries. *)
Lemma pm_inv_after_miss (self : PaletteManager) (hist : list nat)
      (unique_colors : list pixel) (kept : list (nat * PaletteData)) :
  pm_inv self hist ->
  find (matches unique_colors) (palettes self) = None ->
  incl kept (palettes self) ->
  StronglySorted (older_than hist) (OD.keys kept) ->
  List.length kept < max_size self ->
  let pid := next_palette_id self in
  pm_inv (with_palettes self (kept ++ [(pid, new_entry unique_colors)])%list
                        (S pid))
         (pid :: hist).
Proof.
  intros Hinv Hfind Hincl Hsorted Hlen pid.
  destruct Hinv as [Hsize Hfresh Htouched Horder Hdata Hcolors].
  assert (Hk : forall k, In k (OD.keys kept) -> In k (OD.keys (palettes self))).
  { intros k Hin. apply in_map_iff in Hin. destruct Hin as [[k' d] [<- Hin]].
    apply Hincl in Hin. now apply In_keys in Hin. }
  assert (Hnew : forall k d, In (k, d) (palettes self) ->
                             colors d <> unique_colors).
  { intros k d Hin Heq. apply (find_none _ _ Hfind) in Hin.
    unfold matches in Hin. simpl in Hin.
    apply colors_eqb_eq in Heq. congruence. }
  constructor; simpl.
  - rewrite length_app. simpl. lia.
  - intros k Hin. rewrite keys_app, in_app_iff in Hin. simpl in Hin.
    destruct Hin as [Hin|[<-|[]]]; [|unfold pid; lia].
    apply Hk, Hfresh in Hin. lia.
  - intros k Hin. rewrite keys_app, in_app_iff in Hin. simpl in Hin.
    destruct Hin as [Hin|[<-|[]]]; [|now left].
    right. now apply Htouched, Hk.
  - rewrite keys_app. simpl. apply order_after_touch; [|exact Hsorted].
    intros Hin. apply Hk, Hfresh in Hin. unfold pid in Hin. lia.
  - intros k d Hin. rewrite in_app_iff in Hin. simpl in Hin.
    destruct Hin as [Hin|[Heq|[]]].
    + apply (Hdata k). now apply Hincl.
    + now inversion Heq.
  - intros k1 d1 k2 d2 H1 H2 Heq. rewrite in_app_iff in H1, H2.
    simpl in H1, H2.
    destruct H1 as [H1|[H1|[]]], H2 as [H2|[H2|[]]].
    + apply (Hcolors k1 d1 k2 d2); auto.
    + inversion H2; subst. exfalso.
      apply (Hnew k1 d1); [now apply Hincl|exact Heq].
    + inversion H1; subst. exfalso.
      apply (Hnew k2 d2); [now apply Hincl|now symmetry].
    + congruence.
Qed.

(** Every call keeps the invariant. *)
Lemma goc_preserves (self : PaletteManager) (hist : list nat)
      (unique_colors : list pixel) :
  pm_inv self hist ->
  pm_inv (snd (get_or_create_palette unique_colors self))
         (touch (fst (get_or_create_palette unique_colors self)) hist).
Proof.
  intros Hinv.
  destruct (find (matches unique_colors) (palettes self)) as [[pid data]|]
    eqn:Hfind.
  - destruct (goc_hit self unique_colors pid data
                (pm_inv_NoDup _ _ Hinv) Hfind) as [l1 [l2 [Hp [_ Hgoc]]]].
    rewrite Hgoc. simpl. unfold touch. simpl.
    now apply pm_inv_after_hit.
  - rewrite (goc_miss self unique_colors (inv_fresh _ _ Hinv) Hfind).
    destruct (Nat.ltb_spec (List.length (palettes self)) (max_size self))
      as [Hlt|Hge].
    + simpl. unfold touch. simpl.
      apply pm_inv_after_miss; auto.
      * apply incl_refl.
      * apply (inv_order _ _ Hinv).
    + destruct (palettes self) as [|e0 rest] eqn:Hp.
      * simpl. unfold touch. simpl.
        destruct Hinv as [Hsize Hfresh Htouched Horder Hdata Hcolors].
        rewrite Hp in *.
        constructor; simpl; try (intros; contradiction); try lia.
        constructor.
      * simpl. unfold touch. simpl.
        assert (Hsz := inv_size _ _ Hinv). rewrite Hp in Hsz. simpl in Hsz.
        assert (Hord := inv_order _ _ Hinv). rewrite Hp in Hord.
        rewrite <- Hp in Hfind.
        pose proof (pm_inv_after_miss self hist unique_colors rest Hinv
                      Hfind) as Hm.
        rewrite Hp in Hm. apply Hm.
        -- intros x Hx. now right.
        -- apply (ss_tl _ _ Hord).
        -- lia.
Qed.

Lemma pm_run_inv (calls : list (list pixel)) :
  forall self hist,
    pm_inv self hist ->
    pm_inv (fst (pm_run self hist calls)) (snd (pm_run self hist calls)).
Proof.
  induction calls as [|c calls IH]; intros self hist Hinv; simpl.
  - exact Hinv.
  - pose proof (goc_preserves self hist c Hinv) as Hstep.
    destruct (get_or_create_palette c self) as [r self']. simpl in Hstep.
    now apply IH.
Qed.

Lemma goc_max_size (self : PaletteManager) (unique_colors : list pixel) :
  max_size (snd (get_or_create_palette unique_colors self)) = max_size self.
Proof.
  unfold get_or_create_palette.
  destruct (find _ _) as [[pid data]|]; simpl; [reflexivity|].
  destruct (OD.get _ _ _); reflexivity.
Qed.

Lemma pm_run_max_size (calls : list (list pixel)) :
  forall self hist,
    max_size (fst (pm_run self hist calls)) = max_size self.
Proof.
  induction calls as [|c calls IH]; intros self hist; simpl; [reflexivity|].
  pose proof (goc_max_size self c) as Hm.
  destruct (get_or_create_palette c self) as [r self']. simpl in Hm.
  now rewrite IH.
Qed.

Lemma NoDup_keys_functional {V : Type} (d : list (nat * V)) (k : nat)
      (v v' : V) :
  NoDup (OD.keys d) -> In (k, v) d -> In (k, v') d -> v = v'.
Proof.
  induction d as [|[k0 v0] d IH]; simpl; intros Hnd H1 H2; [contradiction|].
  inversion Hnd as [|? ? Hnot Hnd']; subst.
  destruct H1 as [H1|H1], H2 as [H2|H2].
  - congruence.
  - inversion H1; subst. apply In_keys in H2. contradiction.
  - inversion H2; subst. apply In_keys in H1. contradiction.
  - now apply IH.
Qed.

(** With room for at least one entry, a call always returns, and the entry
    it returns is in the cache afterwards. *)
Lemma goc_returns (self : PaletteManager) (hist : list nat)
      (unique_colors : list pixel) :
  pm_inv self hist -> 1 <= max_size self ->
  exists pid created data self1,
    get_or_create_palette unique_colors self
    = (Ret (pid, created, colors_list data), self1)
    /\ In (pid, data) (palettes self1)
    /\ colors data = unique_colors.
Proof.
  intros Hinv Hcap.
  destruct (find (matches unique_colors) (palettes self)) as [[pid data]|]
    eqn:Hfind.
  - destruct (goc_hit self unique_colors pid data
                (pm_inv_NoDup _ _ Hinv) Hfind) as [l1 [l2 [Hp [Hc Hgoc]]]].
    exists pid, false, data. eexists. split; [exact Hgoc|].
    split; [|exact Hc]. simpl. rewrite !in_app_iff. simpl. tauto.
  - pose proof (goc_miss self unique_colors (inv_fresh _ _ Hinv) Hfind)
      as Hgoc. cbv zeta in Hgoc.
    exists (next_palette_id self), true, (new_entry unique_colors).
    destruct (Nat.ltb_spec (List.length (palettes self)) (max_size self))
      as [Hlt|Hge].
    + eexists. split; [exact Hgoc|]. split; [|reflexivity].
      simpl. rewrite in_app_iff. simpl. tauto.
    + destruct (palettes self) as [|e0 rest]; [simpl in Hge; lia|].
      eexists. split; [exact Hgoc|]. split; [|reflexivity].
      simpl. rewrite in_app_iff. simpl. tauto.
Qed.

(** An entry with the requested colors is the one the scan finds. *)
Lemma find_present (self : PaletteManager) (hist : list nat)
      (unique_colors : list pixel) (pid : nat) (data : PaletteData) :
  pm_inv self hist ->
  In (pid, data) (palettes self) -> colors data = unique_colors ->
  find (matches unique_colors) (palettes self) = Some (pid, data).
Proof.
  intros Hinv Hin Hc.
  destruct (find (matches unique_colors) (palettes self)) as [[k d]|]
    eqn:Hfind.
  - destruct (find_some _ _ Hfind) as [Hin' Hm].
    apply colors_eqb_eq in Hm. simpl in Hm.
    assert (k = pid) by
      (apply (inv_colors _ _ Hinv k d pid data); congruence).
    subst k. f_equal. f_equal.
    apply (NoDup_keys_functional (palettes self) pid);
      [apply (pm_inv_NoDup _ _ Hinv)|assumption|assumption].
  - apply (find_none _ _ Hfind) in Hin. unfold matches in Hin. simpl in Hin.
    apply colors_eqb_eq in Hc. congruence.
Qed.

(** C5. In every cache reached from the empty one by a sequence of
    [get_or_create_palette] calls: the number of entries is at most the
    capacity; the entries are kept in order of last touch, the least recently
    touched first, so the first entry was touched longer ago than every
    other; a lookup that finds an entry moves it to the last (most recently
    used) position and changes nothing else; a lookup that finds none
    appends the new entry, and when the cache was full drops exactly the
    first entry. *)
Theorem palette_cache_lru (size : nat) (calls : list (list pixel)) :
  let self := fst (pm_run (PaletteManager_init size) [] calls) in
  let hist := snd (pm_run (PaletteManager_init size) [] calls) in
  List.length (palettes self) <= size
  /\ StronglySorted (older_than hist) (OD.keys (palettes self))
  /\ (forall first rest, palettes self = first :: rest ->
        Forall (fun k => In k hist /\ age hist k < age hist (fst first))
               (OD.keys rest))
  /\ forall unique_colors,
      match find (matches unique_colors) (palettes self) with
      | Some (pid, data) =>
          exists l1 l2,
            palettes self = (l1 ++ (pid, data) :: l2)%list
            /\ get_or_create_palette unique_colors self
               = (Ret (pid, false, colors_list data),
                  with_palettes self (l1 ++ l2 ++ [(pid, data)])%list
                                (next_palette_id self))
      | None =>
          let e := (next_palette_id self, new_entry unique_colors) in
          palettes (snd (get_or_create_palette unique_colors self))
          = if (List.length (palettes self) <? size)%nat
            then (palettes self ++ [e])%list
            else match palettes self with
                 | [] => []
                 | _ :: rest => (rest ++ [e])%list
                 end
      end.
Proof.
  intros self hist.
  assert (Hinv : pm_inv self hist)
    by (apply pm_run_inv, pm_inv_init).
  assert (Hmax : max_size self = size)
    by (unfold self; now rewrite pm_run_max_size).
  split; [|split; [|split]].
  - rewrite <- Hmax. apply (inv_size _ _ Hinv).
  - apply (inv_order _ _ Hinv).
  - intros first rest Hp.
    assert (Hord := inv_order _ _ Hinv).
    assert (Ht := inv_touched _ _ Hinv).
    rewrite Hp in Hord, Ht. simpl in Hord, Ht.
    apply StronglySorted_inv in Hord. destruct Hord as [_ Hall].
    rewrite Forall_forall in *. intros k Hk. split.
    + apply Ht. now right.
    + apply (Hall k Hk).
  - intros unique_colors.
    destruct (find (matches unique_colors) (palettes self)) as [[pid data]|]
      eqn:Hfind.
    + destruct (goc_hit self unique_colors pid data
                  (pm_inv_NoDup _ _ Hinv) Hfind) as [l1 [l2 [Hp [_ Hgoc]]]].
      exists l1, l2. split; assumption.
    + rewrite (goc_miss self unique_colors (inv_fresh _ _ Hinv) Hfind).
      rewrite Hmax.
      destruct (List.length (palettes self) <? size)%nat; [reflexivity|].
      destruct (palettes self); reflexivity.
Qed.

(** C9. In a cache of capacity at least two, reached from the empty one,
    two successive calls with equal color lists return the same palette id,
    the second reports [created = false], and the entry is in the cache
    after each of the two calls. *)
Theorem palette_identity (size : nat) (calls : list (list pixel))
        (colors1 colors2 : list pixel)
        (Hsize : 2 <= size)
        (Hequal : colors_eqb colors1 colors2 = true) :
  let self := fst (pm_run (PaletteManager_init size) [] calls) in
  exists pid created palette self1 self2,
    get_or_create_palette colors1 self = (Ret (pid, created, palette), self1)
    /\ get_or_create_palette colors2 self1 = (Ret (pid, false, palette), self2)
    /\ In pid (OD.keys (palettes self1))
    /\ In pid (OD.keys (palettes self2)).
Proof.
  intros self. apply colors_eqb_eq in Hequal. subst colors2.
  set (hist := snd (pm_run (PaletteManager_init size) [] calls)).
  assert (Hinv : pm_inv self hist) by (apply pm_run_inv, pm_inv_init).
  assert (Hmax : max_size self = size)
    by (unfold self; now rewrite pm_run_max_size).
  destruct (goc_returns self hist colors1 Hinv ltac:(lia))
    as [pid [created [data [self1 [Hgoc [Hin Hc]]]]]].
  pose proof (goc_preserves self hist colors1 Hinv) as Hinv1.
  rewrite Hgoc in Hinv1. simpl in Hinv1.
  pose proof (find_present self1 _ colors1 pid data Hinv1 Hin Hc) as Hfind.
  destruct (goc_hit self1 colors1 pid data (pm_inv_NoDup _ _ Hinv1) Hfind)
    as [l1 [l2 [Hp [_ Hgoc2]]]].
  exists pid, created, (colors_list data), self1. eexists.
  split; [exact Hgoc|]. split; [exact Hgoc2|]. split.
  - now apply In_keys in Hin.
  - simpl. rewrite !keys_app, !in_app_iff. simpl. tauto.
Qed.

(* ====================================================================== *)
(** ** [np_unique]: the distinct colors, sorted *)
(* ====================================================================== *)

Lemma chan_inj (a b : byte) : chan a = chan b -> a = b.
Proof.
  unfold chan. intros H. apply N2Nat.inj in H.
  assert (Ha := Byte.of_to_N a). rewrite H, Byte.of_to_N in Ha. congruence.
Qed.

Lemma pixel_lt_iff (p q : pixel) :
  pixel_lt p q <->
  let '(r1, g1, b1) := p in
  let '(r2, g2, b2) := q in
  chan r1 < chan r2
  \/ (chan r1 = chan r2
      /\ (chan g1 < chan g2 \/ (chan g1 = chan g2 /\ chan b1 < chan b2))).
Proof.
  destruct p as [[r1 g1] b1], q as [[r2 g2] b2].
  unfold pixel_lt, pixel_ltb.
  rewrite !orb_true_iff, !andb_true_iff, !orb_true_iff, !andb_true_iff,
    !Nat.ltb_lt, !Nat.eqb_eq. tauto.
Qed.

Lemma pixel_lt_irrefl (p : pixel) : ~ pixel_lt p p.
Proof. rewrite pixel_lt_iff. destruct p as [[r g] b]. lia. Qed.

Lemma pixel_lt_trans (p q r : pixel) :
  pixel_lt p q -> pixel_lt q r -> pixel_lt p r.
Proof.
  rewrite !pixel_lt_iff.
  destruct p as [[r1 g1] b1], q as [[r2 g2] b2], r as [[r3 g3] b3]. lia.
Qed.

Lemma pixel_lt_total (p q : pixel) :
  pixel_eqb p q = false -> pixel_ltb p q = false -> pixel_lt q p.
Proof.
  intros Hne Hnlt.
  assert (Hneq : p <> q).
  { intros Heq. apply pixel_eqb_eq in Heq. congruence. }
  assert (Hn : ~ pixel_lt p q) by (unfold pixel_lt; congruence).
  rewrite pixel_lt_iff in *.
  destruct p as [[r1 g1] b1], q as [[r2 g2] b2].
  destruct (Nat.lt_trichotomy (chan r1) (chan r2)) as [?|[Hr|?]];
    [lia| |lia].
  destruct (Nat.lt_trichotomy (chan g1) (chan g2)) as [?|[Hg|?]];
    [lia| |lia].
  destruct (Nat.lt_trichotomy (chan b1) (chan b2)) as [?|[Hb|?]];
    [lia| |lia].
  apply chan_inj in Hr, Hg, Hb. congruence.
Qed.

Lemma insert_unique_In (p x : pixel) (sorted : list pixel) :
  In x (insert_unique p sorted) <-> x = p \/ In x sorted.
Proof.
  induction sorted as [|q rest IH]; simpl.
  - intuition.
  - destruct (pixel_eqb p q) eqn:E.
    + apply pixel_eqb_eq in E. subst q. simpl. intuition.
    + destruct (pixel_ltb p q); simpl; [intuition|].
      rewrite IH. intuition.
Qed.

Lemma insert_unique_sorted (p : pixel) (sorted : list pixel) :
  StronglySorted pixel_lt sorted ->
  StronglySorted pixel_lt (insert_unique p sorted).
Proof.
  induction 1 as [|q rest Hs IH Hq]; simpl.
  - repeat constructor.
  - destruct (pixel_eqb p q) eqn:E; [now constructor|].
    destruct (pixel_ltb p q) eqn:L.
    + constructor; [now constructor|].
      constructor; [exact L|].
      rewrite Forall_forall in *. intros x Hx.
      apply (pixel_lt_trans p q x); [exact L|now apply Hq].
    + constructor; [exact IH|].
      rewrite Forall_forall in *. intros x Hx.
      apply insert_unique_In in Hx. destruct Hx as [->|Hx].
      * now apply pixel_lt_total.
      * now apply Hq.
Qed.

Lemma np_unique_sorted (pixels : list pixel) :
  StronglySorted pixel_lt (np_unique pixels).
Proof.
  induction pixels as [|p pixels IH]; simpl; [constructor|].
  now apply insert_unique_sorted.
Qed.

Lemma np_unique_In (pixels : list pixel) (x : pixel) :
  In x (np_unique pixels) <-> In x pixels.
Proof.
  induction pixels as [|p pixels IH]; simpl; [tauto|].
  rewrite insert_unique_In, IH. intuition.
Qed.

Lemma np_unique_NoDup (pixels : list pixel) : NoDup (np_unique pixels).
Proof.
  apply (ss_strict_NoDup pixel_lt);
    [apply pixel_lt_irrefl|apply np_unique_sorted].
Qed.

(** The length of [np_unique] is the number of distinct colors. *)
Lemma np_unique_count (image : PixelBuffer) :
  List.length (np_unique (reshape image)) = distinct_colors image.
Proof.
  unfold distinct_colors. apply Permutation_length.
  apply NoDup_Permutation.
  - apply np_unique_NoDup.
  - apply NoDup_nodup.
  - intros x. now rewrite np_unique_In, nodup_In.
Qed.

(* ====================================================================== *)
(** ** The indexed encoders *)
(* ====================================================================== *)

Lemma palette_bound_spec (n : nat) :
  palette_bound n = true <-> 1 < n <= MAX_PALETTE_COLORS.
Proof.
  unfold palette_bound. now rewrite andb_true_iff, Nat.ltb_lt, Nat.leb_le.
Qed.

Lemma rle_loop_not_nil {A : Type} (eqb : A -> A -> bool) (it : list A) :
  forall prev_val count encoded,
    rle_loop eqb it prev_val count encoded <> [].
Proof.
  induction it as [|val it IH]; intros prev_val count encoded; simpl.
  - destruct encoded; discriminate.
  - destruct (eqb val prev_val); apply IH.
Qed.

Lemma rle_encode_nil {A : Type} (eqb : A -> A -> bool) (l : list A) :
  _rle_encode eqb l = [] -> l = [].
Proof.
  destruct l as [|a l]; [reflexivity|]. simpl. intros H.
  now apply rle_loop_not_nil in H.
Qed.

Lemma lookup_indices_length (table : list (pixel * nat))
      (pixels : list pixel) (indices : list nat) :
  lookup_indices table pixels = Some indices ->
  List.length indices = List.length pixels.
Proof.
  revert indices. induction pixels as [|p pixels IH]; simpl; intros indices H.
  - now inversion H.
  - destruct (OD.get pixel_eqb p table); [|discriminate].
    destruct (lookup_indices table pixels); [|discriminate].
    inversion H; subst. simpl. f_equal. now apply IH.
Qed.

Lemma np_unique_nil (pixels : list pixel) :
  pixels = [] -> List.length (np_unique pixels) = 0.
Proof. intros ->. reflexivity. Qed.

(** Outcomes of an encoder that are not "declined". *)
Ltac not_declined :=
  split; [discriminate|intros; exfalso; lia].

(** Declining: [INDEXED] and [INDEXED_RLE] return no candidate
    exactly when the number of distinct colors is at most 1 or above 256;
    [DIFF_INDEXED] does so exactly when, in addition to these two cases,
    there is no previous buffer or no pixel changed. *)
Lemma indexed_declines (image : PixelBuffer)
      (prev_data : option PixelBuffer) (client_cached_pids : list Z)
      (self : PaletteManager) :
  let n := distinct_colors image in
  (fst (_create_indexed_update image client_cached_pids self) = Ret None
   <-> n <= 1 \/ MAX_PALETTE_COLORS < n)
  /\ (fst (_create_indexed_rle_update image client_cached_pids self)
      = Ret None
      <-> n <= 1 \/ MAX_PALETTE_COLORS < n)
  /\ (fst (_create_diff_indexed_update image prev_data client_cached_pids
             self) = Ret None
      <-> prev_data = None \/ n <= 1 \/ MAX_PALETTE_COLORS < n
          \/ exists prev, prev_data = Some prev
                          /\ diff_coords image prev = []).
Proof.
  intros n. unfold n. rewrite <- np_unique_count.
  set (num := List.length (np_unique (reshape image))).
  assert (Hb := palette_bound_spec num).
  split; [|split].
  - unfold _create_indexed_update. fold num.
    destruct (palette_bound num) eqn:B; simpl.
    + assert (1 < num <= MAX_PALETTE_COLORS) by now apply Hb.
      unfold bind.
      destruct (get_or_create_palette _ self) as [[[[pid new] pal]|e] self1];
        [|not_declined].
      unfold or_raise.
      destruct (lookup_indices _ _); simpl; not_declined.
    + split; [intros _|reflexivity].
      assert (~ (1 < num <= MAX_PALETTE_COLORS)) by (rewrite <- Hb; congruence).
      lia.
  - unfold _create_indexed_rle_update. fold num.
    destruct (palette_bound num) eqn:B; simpl.
    + assert (Hn : 1 < num <= MAX_PALETTE_COLORS) by now apply Hb.
      unfold bind.
      destruct (get_or_create_palette _ self) as [[[[pid new] pal]|e] self1];
        [|not_declined].
      unfold or_raise.
      destruct (lookup_indices _ _) as [indices|] eqn:L; simpl;
        [|not_declined].
      destruct (_rle_encode Nat.eqb indices) eqn:R; [|not_declined].
      exfalso. apply rle_encode_nil in R. subst indices.
      apply lookup_indices_length in L. simpl in L.
      symmetry in L. apply length_zero_iff_nil in L.
      apply np_unique_nil in L. fold num in L. lia.
    + split; [intros _|reflexivity].
      assert (~ (1 < num <= MAX_PALETTE_COLORS)) by (rewrite <- Hb; congruence).
      lia.
  - unfold _create_diff_indexed_update. fold num.
    destruct prev_data as [prev|]; [|split; [now left|reflexivity]].
    destruct (palette_bound num) eqn:B; simpl.
    + assert (Hn : 1 < num <= MAX_PALETTE_COLORS) by now apply Hb.
      destruct (diff_coords image prev) as [|c coords] eqn:D.
      * split; [intros _|reflexivity].
        right. right. right. now exists prev.
      * unfold bind.
        assert (Hno : ~ (Some prev = None \/ num <= 1
                         \/ MAX_PALETTE_COLORS < num
                         \/ exists prev0, Some prev = Some prev0
                                          /\ diff_coords image prev0 = [])).
        { intros [H|[H|[H|[p [Hp Hd]]]]]; try discriminate; try lia.
          inversion Hp; subst. congruence. }
        destruct (get_or_create_palette _ self)
          as [[[[pid new] pal]|e] self1];
          [|split; [discriminate|tauto]].
        unfold or_raise.
        destruct (lookup_indices _ _); simpl; (split; [discriminate|tauto]).
    + split; [intros _|reflexivity].
      assert (~ (1 < num <= MAX_PALETTE_COLORS)) by (rewrite <- Hb; congruence).
      lia.
Qed.

Lemma od_get_set_other {K V : Type} (keqb : K -> K -> bool)
      (keqb_spec : forall a b, keqb a b = true <-> a = b)
      (k k' : K) (v : V) (d : list (K * V)) :
  k <> k' -> OD.get keqb k (OD.set keqb k' v d) = OD.get keqb k d.
Proof.
  intros Hne. induction d as [|[k0 v0] d IH]; simpl.
  - destruct (keqb k' k) eqn:E; [|reflexivity].
    apply keqb_spec in E. congruence.
  - destruct (keqb k0 k') eqn:E0; simpl.
    + apply keqb_spec in E0. subst k0.
      destruct (keqb k' k) eqn:E; [|reflexivity].
      apply keqb_spec in E. congruence.
    + destruct (keqb k0 k); [reflexivity|exact IH].
Qed.

Lemma color_to_idx_from_get (palette : list pixel) :
  forall i acc p,
    In p palette \/ OD.get pixel_eqb p acc <> None ->
    OD.get pixel_eqb p (color_to_idx_from i palette acc) <> None.
Proof.
  induction palette as [|color rest IH]; intros i acc p H; simpl.
  - destruct H as [[]|H]. exact H.
  - apply IH. destruct H as [[->|H]|H].
    + right. rewrite (od_get_set_same pixel_eqb pixel_eqb_eq). discriminate.
    + now left.
    + right. destruct (pixel_eq_dec p color) as [->|Hne].
      * rewrite (od_get_set_same pixel_eqb pixel_eqb_eq). discriminate.
      * now rewrite (od_get_set_other pixel_eqb pixel_eqb_eq).
Qed.

Lemma lookup_indices_total (palette pixels : list pixel) :
  (forall p, In p pixels -> In p palette) ->
  exists indices,
    lookup_indices (color_to_idx palette) pixels = Some indices.
Proof.
  induction pixels as [|p pixels IH]; intros Hall; simpl.
  - now exists [].
  - destruct (OD.get pixel_eqb p (color_to_idx palette)) as [i|] eqn:G.
    + destruct IH as [indices ->]; [intros q Hq; apply Hall; now right|].
      now eexists.
    + exfalso. revert G. apply color_to_idx_from_get. left.
      apply Hall. now left.
Qed.

Lemma diff_row_in (row prev_row : list pixel) :
  forall y x c,
    In c (diff_row y x row prev_row) ->
    fst c = y /\ x <= snd c /\ snd c - x < List.length row.
Proof.
  revert prev_row. induction row as [|p row IH]; intros [|q prev_row] y x c;
    simpl; try contradiction.
  intros H.
  assert (Hrec : In c (diff_row y (S x) row prev_row) ->
                 fst c = y /\ x <= snd c /\ snd c - x < S (List.length row)).
  { intros Hin. apply IH in Hin. lia. }
  destruct (pixel_eqb p q); [now apply Hrec|].
  destruct H as [<-|H]; [simpl; lia|now apply Hrec].
Qed.

Lemma diff_rows_in (image prev : PixelBuffer) :
  forall y c,
    In c (diff_rows y image prev) ->
    y <= fst c /\ fst c - y < List.length image
    /\ snd c < List.length (nth (fst c - y) image []).
Proof.
  revert prev. induction image as [|row rows IH]; intros [|prow prows] y c;
    simpl; try contradiction.
  intros H. apply in_app_iff in H. destruct H as [H|H].
  - apply diff_row_in in H. destruct H as [-> [_ H]].
    rewrite Nat.sub_diag. rewrite Nat.sub_0_r in H. lia.
  - apply IH in H. destruct H as [H1 [H2 H3]].
    replace (fst c - y) with (S (fst c - S y)) by lia. lia.
Qed.

Lemma diff_coords_in (image prev : PixelBuffer) (c : nat * nat) :
  In c (diff_coords image prev) ->
  In (pixel_at image (fst c) (snd c)) (reshape image).
Proof.
  intros H. apply diff_rows_in in H. rewrite Nat.sub_0_r in H.
  destruct H as [_ [Hy Hx]]. unfold pixel_at, reshape.
  apply in_concat. exists (nth (fst c) image []). split.
  - now apply nth_In.
  - now apply nth_In.
Qed.

(** In a well-formed cache with room for one entry, a call returns the
    very color list it was given as the palette. *)
Lemma goc_palette (self : PaletteManager) (hist : list nat)
      (unique_colors : list pixel) :
  pm_inv self hist -> 1 <= max_size self ->
  exists pid created self1,
    get_or_create_palette unique_colors self
    = (Ret (pid, created, unique_colors), self1).
Proof.
  intros Hinv Hcap.
  destruct (goc_returns self hist unique_colors Hinv Hcap)
    as [pid [created [data [self1 [Hgoc [Hin Hc]]]]]].
  pose proof (goc_preserves self hist unique_colors Hinv) as Hinv1.
  rewrite Hgoc in Hinv1. simpl in Hinv1.
  rewrite (inv_data _ _ Hinv1 pid data Hin), Hc in Hgoc.
  now exists pid, created, self1.
Qed.

(** Producing: in a well-formed cache with room for at least one entry,
    each indexed encoder returns a candidate whenever it does not decline. *)
Lemma indexed_produces (image : PixelBuffer)
      (prev_data : option PixelBuffer) (client_cached_pids : list Z)
      (self : PaletteManager) (hist : list nat) :
  pm_inv self hist -> 1 <= max_size self ->
  1 < distinct_colors image <= MAX_PALETTE_COLORS ->
  (exists s, fst (_create_indexed_update image client_cached_pids self)
             = Ret (Some s))
  /\ (exists s, fst (_create_indexed_rle_update image client_cached_pids
                       self) = Ret (Some s))
  /\ (forall prev, prev_data = Some prev -> diff_coords image prev <> [] ->
        exists s, fst (_create_diff_indexed_update image prev_data
                         client_cached_pids self) = Ret (Some s)).
Proof.
  intros Hinv Hcap Hn. rewrite <- np_unique_count in Hn.
  set (U := np_unique (reshape image)) in *.
  assert (B : palette_bound (List.length U) = true)
    by now apply palette_bound_spec.
  destruct (goc_palette self hist U Hinv Hcap) as [pid [created [self1 Hgoc]]].
  destruct (lookup_indices_total U (reshape image)) as [indices Hidx].
  { intros p Hp. now apply np_unique_In. }
  split; [|split].
  - unfold _create_indexed_update. fold U. rewrite B. simpl.
    unfold bind. rewrite Hgoc, Hidx. simpl. now eexists.
  - unfold _create_indexed_rle_update. fold U. rewrite B. simpl.
    unfold bind. rewrite Hgoc, Hidx. simpl.
    destruct (_rle_encode Nat.eqb indices) eqn:R; simpl; [|now eexists].
    exfalso. apply rle_encode_nil in R. subst indices.
    apply lookup_indices_length in Hidx. simpl in Hidx.
    symmetry in Hidx. apply length_zero_iff_nil in Hidx.
    apply np_unique_nil in Hidx. fold U in Hidx. lia.
  - intros prev -> Hd.
    unfold _create_diff_indexed_update. fold U. rewrite B. simpl.
    destruct (diff_coords image prev) as [|c coords] eqn:D; [congruence|].
    destruct (lookup_indices_total U
                (map (fun c => pixel_at image (fst c) (snd c)) (c :: coords)))
      as [idxs Hidxs].
    { intros p Hp. apply in_map_iff in Hp. destruct Hp as [c' [<- Hc']].
      apply np_unique_In. apply (diff_coords_in image prev). now rewrite D. }
    unfold bind. rewrite Hgoc, Hidxs. simpl. now eexists.
Qed.

(** C7. [INDEXED] and [INDEXED_RLE] decline exactly when the buffer has at
    most 1 or more than 256 distinct colors, and [DIFF_INDEXED] exactly when
    in addition there is no previous buffer or no changed pixel; in every
    cache reached from the empty one with capacity at least 1, a buffer
    with 1 < n <= 256 distinct colors makes each of them produce a
    candidate ([DIFF_INDEXED]: given a previous buffer and a changed
    pixel). *)
Theorem indexed_palette_bound (image : PixelBuffer)
        (prev_data : option PixelBuffer) (client_cached_pids : list Z)
        (self : PaletteManager) :
  let n := distinct_colors image in
  ((fst (_create_indexed_update image client_cached_pids self) = Ret None
    <-> n <= 1 \/ MAX_PALETTE_COLORS < n)
   /\ (fst (_create_indexed_rle_update image client_cached_pids self)
       = Ret None
       <-> n <= 1 \/ MAX_PALETTE_COLORS < n)
   /\ (fst (_create_diff_indexed_update image prev_data client_cached_pids
              self) = Ret None
       <-> prev_data = None \/ n <= 1 \/ MAX_PALETTE_COLORS < n
           \/ exists prev, prev_data = Some prev
                           /\ diff_coords image prev = []))
  /\ forall size calls,
      self = fst (pm_run (PaletteManager_init size) [] calls) ->
      1 <= size ->
      1 < n <= MAX_PALETTE_COLORS ->
      (exists s, fst (_create_indexed_update image client_cached_pids self)
                 = Ret (Some s))
      /\ (exists s, fst (_create_indexed_rle_update image client_cached_pids
                           self) = Ret (Some s))
      /\ (forall prev, prev_data = Some prev ->
                       diff_coords image prev <> [] ->
            exists s, fst (_create_diff_indexed_update image prev_data
                             client_cached_pids self) = Ret (Some s)).
Proof.
  intros n. split; [apply indexed_declines|].
  intros size calls -> Hsize Hn.
  apply (indexed_produces image prev_data client_cached_pids _
           (snd (pm_run (PaletteManager_init size) [] calls))).
  - apply pm_run_inv, pm_inv_init.
  - now rewrite pm_run_max_size.
  - exact Hn.
Qed.

(* ====================================================================== *)
(** ** Selection of the smallest candidate *)
(* ====================================================================== *)

(** [min] returns the first of the items whose key is smallest. *)
Lemma min_from_spec {A : Type} (key : A -> nat) (items : list A) :
  forall best,
    (Py.min_from key best items = best
     /\ forall x, In x items -> key best <= key x)
    \/ exists l1 l2,
        items = (l1 ++ Py.min_from key best items :: l2)%list
        /\ key (Py.min_from key best items) < key best
        /\ (forall x, In x l1 -> key (Py.min_from key best items) < key x)
        /\ (forall x, In x l2 -> key (Py.min_from key best items) <= key x).
Proof.
  induction items as [|x items IH]; intros best; simpl.
  - left. split; [reflexivity|intros x []].
  - destruct (Nat.ltb_spec (key x) (key best)) as [Hlt|Hge].
    + right. destruct (IH x) as [[Heq Hall]|[l1 [l2 [Hsplit [Hk [H1 H2]]]]]].
      * exists [], items. rewrite Heq. simpl. repeat split; auto.
        intros y [].
      * exists (x :: l1), l2. simpl. rewrite <- Hsplit.
        repeat split; auto; [lia|].
        intros y [<-|Hy]; [exact Hk|now apply H1].
    + destruct (IH best) as [[Heq Hall]|[l1 [l2 [Hsplit [Hk [H1 H2]]]]]].
      * left. split; [exact Heq|]. intros y [<-|Hy]; [exact Hge|now apply Hall].
      * right. exists (x :: l1), l2. simpl. rewrite <- Hsplit.
        repeat split; auto.
        intros y [<-|Hy]; [lia|now apply H1].
Qed.

Lemma min_spec {A : Type} (key : A -> nat) (items : list A) (best : A) :
  Py.min key items = Some best ->
  exists l1 l2,
    items = (l1 ++ best :: l2)%list
    /\ (forall x, In x l1 -> key best < key x)
    /\ (forall x, In x l2 -> key best <= key x).
Proof.
  destruct items as [|x items]; simpl; [discriminate|].
  intros H. inversion H as [Hb]. clear H.
  destruct (min_from_spec key items x)
    as [[Heq Hall]|[l1 [l2 [Hsplit [Hk [H1 H2]]]]]].
  - exists [], items. rewrite Heq. simpl. repeat split; auto. intros y [].
  - exists (x :: l1), l2. simpl. rewrite <- Hsplit. repeat split; auto.
    intros y [<-|Hy]; [exact Hk|now apply H1].
Qed.

(** The [candidates] dictionary always has the six keys, in source order,
    and its first value is the [FULL] payload. *)
Lemma candidates_of_shape (image : PixelBuffer)
      (prev_frame_data : option PixelBuffer) (client_cached_pids : list Z)
      (self self' : PaletteManager) (cands : list (string * option string)) :
  candidates_of image prev_frame_data client_cached_pids self
  = (Ret cands, self') ->
  exists diff fr idx d_idx ir,
    cands = [("FULL", Some (_create_full_update image)); ("DIFF", diff);
             ("FR", fr); ("IDX", idx); ("D_IDX", d_idx); ("IR", ir)].
Proof.
  unfold candidates_of, bind, ret. intros H.
  destruct (_create_indexed_update _ _ _) as [[idx|e] s1];
    [|discriminate].
  destruct (_create_diff_indexed_update _ _ _ _) as [[d_idx|e] s2];
    [|discriminate].
  destruct (_create_indexed_rle_update _ _ _) as [[ir|e] s3];
    [|discriminate].
  inversion H. now repeat eexists.
Qed.

(** The valid candidates keep the source order of their keys. *)
Lemma valid_candidates_ordered (full : string)
      (diff fr idx d_idx ir : option string) :
  StronglySorted (fun a b => rank code_order a < rank code_order b)
    (map fst (valid_candidates
                [("FULL", Some full); ("DIFF", diff); ("FR", fr);
                 ("IDX", idx); ("D_IDX", d_idx); ("IR", ir)])).
Proof.
  destruct diff, fr, idx, d_idx, ir; simpl;
    repeat (constructor; simpl; try lia).
Qed.

Lemma ss_app_lt {A : Type} (R : A -> A -> Prop) (l1 l2 : list A) (a : A) :
  StronglySorted R (l1 ++ a :: l2)%list -> Forall (R a) l2.
Proof.
  induction l1 as [|b l1 IH]; simpl; intros H; inversion H; subst; auto.
Qed.

(** C1 (as the code has it). The publisher selects a candidate with the
    fewest bytes; among candidates of that same length it selects the one
    whose key comes first in the order in which the source builds the
    [candidates] dictionary: FULL, DIFF, FR, IDX, D_IDX, IR. *)
Theorem selection_minimal (image : PixelBuffer)
        (prev_frame_data : option PixelBuffer) (client_cached_pids : list Z)
        (self : PaletteManager) :
  selects_by code_order image prev_frame_data client_cached_pids self.
Proof.
  intros cands self' best_format data_to_send Hc Hbest.
  destruct (candidates_of_shape _ _ _ _ _ _ Hc)
    as [diff [fr [idx [d_idx [ir Hshape]]]]].
  pose proof (valid_candidates_ordered (_create_full_update image)
                diff fr idx d_idx ir) as Hord.
  rewrite <- Hshape in Hord. clear Hshape Hc.
  unfold select_best in Hbest. apply min_spec in Hbest.
  destruct Hbest as [l1 [l2 [Hsplit [H1 H2]]]].
  rewrite Hsplit in *. split; [|split].
  - apply in_app_iff. right. now left.
  - intros k v Hin. apply in_app_iff in Hin.
    destruct Hin as [Hin|[Heq|Hin]].
    + apply H1 in Hin. simpl in Hin. lia.
    + inversion Heq; subst. lia.
    + apply H2 in Hin. exact Hin.
  - intros k v Hin Hlen. apply in_app_iff in Hin.
    destruct Hin as [Hin|[Heq|Hin]].
    + apply H1 in Hin. simpl in Hin. lia.
    + inversion Heq; subst. lia.
    + rewrite map_app, map_cons in Hord.
      apply ss_app_lt in Hord. rewrite Forall_forall in Hord.
      apply (in_map fst) in Hin. apply Hord in Hin. cbn [fst] in Hin. lia.
Qed.

(** C1 as stated fails: with one previous frame that differs at two pixels,
    the DIFF and FULL_RLE payloads are both 20 bytes, the shortest, and the
    publisher selects DIFF although FULL_RLE comes first in the table. *)
Lemma table_order_tie_broken_by_source_order :
  ~ selects_by table_order tie_image (Some tie_prev) []
      (PaletteManager_init MAX_PALETTES_TO_KEEP).
Proof.
  intros H.
  specialize (H _ _ "DIFF" "D|0:010203|10:0a0b0c" eq_refl eq_refl).
  destruct H as [_ [_ H]].
  specialize (H "FR" "FR|010203,f|0a0b0c,2").
  simpl in H. assert (2 <= 1) by (apply H; [tauto|reflexivity]). lia.
Qed.

Lemma serve_chunk_store (frame_id : option string) (chunk_index : Z)
      (env : Env) (st : Server) :
  snd (serve_chunk frame_id chunk_index env st) = st.
Proof.
  unfold serve_chunk, bind, get_store, ret.
  destruct frame_id as [[|c fid]|]; try reflexivity.
  destruct (OD.get _ _ _); [|reflexivity].
  destruct (_ && _)%bool; [|reflexivity]. apply wfile_write_store.
Qed.

Lemma serve_chunk_status (frame_id : option string) (chunk_index : Z)
      (env : Env) (st st' : Server) (r : response) :
  serve_chunk frame_id chunk_index env st = (Ret r, st') ->
  status r = 200 \/ status r = 404.
Proof.
  unfold serve_chunk, bind, get_store, ret.
  destruct frame_id as [[|c fid]|];
    try (intros H; inversion H; now right).
  destruct (OD.get _ _ _); [|intros H; inversion H; now right].
  destruct (_ && _)%bool; [|intros H; inversion H; now right].
  unfold wfile_write, ret, raise. destruct (wfile_ok env); intros H;
    inversion H. now left.
Qed.

Lemma handle_get_chunk_store (params : list (string * string)) (env : Env)
      (st : Server) :
  snd (_handle_get_chunk params env st) = st.
Proof.
  unfold _handle_get_chunk, bind, or_raise, ret, raise.
  destruct (chunk_index_of params); [|reflexivity].
  pose proof (serve_chunk_store (params_get "frame_id" params) z env st) as H.
  destruct (serve_chunk _ _ _ _) as [[r|e] st']; exact H.
Qed.

Lemma handle_get_chunk_status (params : list (string * string)) (env : Env)
      (st st' : Server) (r : response) :
  _handle_get_chunk params env st = (Ret r, st') ->
  status r = 200 \/ status r = 404.
Proof.
  unfold _handle_get_chunk, bind, or_raise, ret, raise.
  destruct (chunk_index_of params); [|discriminate].
  destruct (serve_chunk _ _ _ _) as [[r0|e] st0] eqn:H; [|discriminate].
  intros Heq. inversion Heq; subst. now apply serve_chunk_status in H.
Qed.

(** [FULL] is always among the valid candidates, so one is selected. *)
Lemma candidates_include_full (image : PixelBuffer)
      (prev_frame_data : option PixelBuffer) (client_cached_pids : list Z)
      (self self' : PaletteManager) (cands : list (string * option string)) :
  candidates_of image prev_frame_data client_cached_pids self
  = (Ret cands, self') ->
  In ("FULL", _create_full_update image) (valid_candidates cands)
  /\ exists best, select_best (valid_candidates cands) = Some best.
Proof.
  intros Hc.
  destruct (candidates_of_shape _ _ _ _ _ _ Hc)
    as [diff [fr [idx [d_idx [ir ->]]]]].
  simpl. split; [now left|]. now eexists.
Qed.

(** C10. [FULL] is a candidate for every buffer, so whenever the six
    encoders have run a candidate is selected, and no request is answered
    204. *)
Theorem full_never_declines :
  (forall image prev_frame_data client_cached_pids self cands self',
      candidates_of image prev_frame_data client_cached_pids self
      = (Ret cands, self') ->
      In ("FULL", _create_full_update image) (valid_candidates cands)
      /\ exists best, select_best (valid_candidates cands) = Some best)
  /\ forall params env st, status (fst (do_GET params env st)) <> 204.
Proof.
  split; [intros; eapply candidates_include_full; eassumption|].
  intros params env st. unfold do_GET.
  destruct (params_get "action" params) as [action|];
    [|simpl; discriminate].
  destruct (String.eqb action "new_frame").
  - unfold _handle_new_frame, bind, get_store, of_outcome,
      lift_palette_manager, put_store.
    destruct (produced env) as [image|e]; [|simpl; discriminate].
    destruct (candidates_of image _ _ (palette_manager st))
      as [[cands|e] pm'] eqn:Hc; [|simpl; discriminate].
    destruct (candidates_include_full _ _ _ _ _ _ Hc)
      as [_ [[best_format data] Hbest]].
    rewrite Hbest. unfold wfile_write.
    destruct (wfile_ok env); simpl; discriminate.
  - destruct (String.eqb action "get_chunk"); [|simpl; discriminate].
    destruct (_handle_get_chunk params env st) as [[r|e] st'] eqn:H;
      [|simpl; discriminate].
    apply handle_get_chunk_status in H. simpl. lia.
Qed.

(* ====================================================================== *)
(** ** The end-to-end scenario *)
(* ====================================================================== *)

(** C2 (as the code has it). For the buffer [(0,0,0), (255,255,255)] on a
    fresh cache with no previous frame and an empty hint, the INDEXED
    candidate is [I|0|000000,ffffff|01] and the FULL_RLE candidate is
    [FR|000000,1|ffffff,1], both 20 bytes; the FULL candidate is
    [F|AAAA////], 10 bytes, and it is the one the publisher selects and
    sends. *)
Theorem scenario_selects_full :
  fst scenario_candidates
  = Ret [("FULL", Some "F|AAAA////"); ("DIFF", None);
         ("FR", Some "FR|000000,1|ffffff,1");
         ("IDX", Some "I|0|000000,ffffff|01"); ("D_IDX", None);
         ("IR", Some "IR|0|000000,ffffff|0,1|1,1")]
  /\ String.length "I|0|000000,ffffff|01" = 20
  /\ String.length "FR|000000,1|ffffff,1" = 20
  /\ String.length "F|AAAA////" = 10
  /\ (forall cands self',
        scenario_candidates = (Ret cands, self') ->
        select_best (valid_candidates cands) = Some ("FULL", "F|AAAA////"))
  /\ fst (do_GET new_frame_params (scenario_env true) Server_init)
     = {| status := 200; body := "0123abcd;1;F|AAAA////" |}.
Proof.
  repeat split; try (vm_compute; reflexivity).
  intros cands self' H. vm_compute in H. inversion H. reflexivity.
Qed.

(** C2 as stated fails: INDEXED is not shorter than the other two, and it
    is not selected. *)
Lemma scenario_indexed_not_selected : ~ scenario_as_stated.
Proof.
  intros [cands [self' [full [H [_ [_ [_ [_ [_ Hsel]]]]]]]]].
  vm_compute in H. inversion H; subst. vm_compute in Hsel. discriminate.
Qed.

(* ====================================================================== *)
(** ** Failed requests and unknown frames *)
(* ====================================================================== *)

Lemma do_GET_new_frame (params : list (string * string)) (env : Env)
      (st : Server) :
  params_get "action" params = Some "new_frame" ->
  do_GET params env st
  = match _handle_new_frame params env st with
    | (Ret r, st') => (r, st')
    | (Raise _, st') => (send_response 500 "Internal Server Error", st')
    end.
Proof. intros H. unfold do_GET. rewrite H. reflexivity. Qed.


Lemma do_GET_other_store (params : list (string * string)) (env : Env)
      (st : Server) :
  params_get "action" params <> Some "new_frame" ->
  snd (do_GET params env st) = st.
Proof.
  intros Hn. unfold do_GET.
  destruct (params_get "action" params) as [action|]; [|reflexivity].
  destruct (String.eqb_spec action "new_frame") as [->|_]; [congruence|].
  destruct (String.eqb action "get_chunk"); [|reflexivity].
  pose proof (handle_get_chunk_store params env st) as H.
  destruct (_handle_get_chunk params env st) as [[r|e] st']; exact H.
Qed.

(** C3 (as the code has it). Requests other than [new_frame] never change
    the palette cache or the frame store; a [new_frame] request whose frame
    producer raises is answered 500 and changes neither; and every request
    answered 500 for a reason other than the final write of the response
    body leaves the frame store as it was. *)
Theorem failed_request_state (params : list (string * string)) (env : Env)
        (st : Server) :
  (params_get "action" params <> Some "new_frame" ->
   snd (do_GET params env st) = st)
  /\ (forall e, params_get "action" params = Some "new_frame" ->
                produced env = Raise e ->
                do_GET params env st
                = (send_response 500 "Internal Server Error", st))
  /\ (status (fst (do_GET params env st)) = 500 ->
      wfile_ok env = true ->
      IMAGE_FRAMES (snd (do_GET params env st)) = IMAGE_FRAMES st).
Proof.
  split; [apply do_GET_other_store|]. split.
  - intros e Ha Hp. rewrite (do_GET_new_frame _ _ _ Ha).
    unfold _handle_new_frame, bind, get_store, of_outcome. now rewrite Hp.
  - intros H500 Hok.
    assert (Hdec : params_get "action" params = Some "new_frame"
                   \/ params_get "action" params <> Some "new_frame").
    { destruct (params_get "action" params) as [a|]; [|right; discriminate].
      destruct (string_dec a "new_frame") as [->|Hne];
        [now left|right; congruence]. }
    destruct Hdec as [Ha|Ha]; [|now rewrite do_GET_other_store].
    rewrite (do_GET_new_frame _ _ _ Ha) in *.
    unfold _handle_new_frame, bind, get_store, of_outcome,
      lift_palette_manager, put_store in *.
    destruct (produced env) as [image|e]; [|reflexivity].
    destruct (candidates_of image _ _ (palette_manager st))
      as [[cands|e] pm'] eqn:Hc; [|reflexivity].
    destruct (candidates_include_full _ _ _ _ _ _ Hc)
      as [_ [[best_format data] Hbest]].
    rewrite Hbest in *. unfold wfile_write in *. rewrite Hok in *.
    simpl in H500. discriminate.
Qed.

(** C3 as stated fails: when the write of the response body raises, the
    request is answered 500 after the palette has been cached and the frame
    stored. *)
Lemma failed_write_keeps_mutations :
  ~ failure_leaves_state new_frame_params (scenario_env false) Server_init.
Proof.
  intros H. assert (Heq := H eq_refl). vm_compute in Heq. discriminate.
Qed.

(** The state that request leaves behind: palette 0 is cached, the id
    counter has advanced, and the frame is in the store. *)
Lemma failed_write_state :
  let '(r, st') := do_GET new_frame_params (scenario_env false) Server_init in
  status r = 500
  /\ OD.keys (palettes (palette_manager st')) = [0]
  /\ next_palette_id (palette_manager st') = 1
  /\ OD.keys (IMAGE_FRAMES st') = ["0123abcd"].
Proof. vm_compute. repeat split. Qed.



(* ====================================================================== *)
(** ** Instances on concrete inputs *)
(* ====================================================================== *)

Lemma selection_minimal_witness :
  In ("DIFF", "D|0:010203|10:0a0b0c") (valid_candidates tie_candidates)
  /\ (forall k v, In (k, v) (valid_candidates tie_candidates) ->
                  String.length "D|0:010203|10:0a0b0c" <= String.length v)
  /\ (forall k v, In (k, v) (valid_candidates tie_candidates) ->
                  String.length v = String.length "D|0:010203|10:0a0b0c" ->
                  rank code_order "DIFF" <= rank code_order k).
Proof.
  apply (selection_minimal tie_image (Some tie_prev) []
           (PaletteManager_init MAX_PALETTES_TO_KEEP) tie_candidates
           (snd (candidates_of tie_image (Some tie_prev) []
                   (PaletteManager_init MAX_PALETTES_TO_KEEP)))
           "DIFF" "D|0:010203|10:0a0b0c").
  - vm_compute. reflexivity.
  - vm_compute. reflexivity.
Defined.


Lemma indexed_palette_bound_witness :
  exists s,
    fst (_create_indexed_update scenario_image []
           (PaletteManager_init MAX_PALETTES_TO_KEEP)) = Ret (Some s).
Proof.
  apply (proj2 (indexed_palette_bound scenario_image None []
                  (PaletteManager_init MAX_PALETTES_TO_KEEP))
               MAX_PALETTES_TO_KEEP []).
  - reflexivity.
  - unfold MAX_PALETTES_TO_KEEP. lia.
  - rewrite <- np_unique_count. vm_compute. lia.
Defined.

Lemma chunks_reconstruct_payload_witness :
  (exists frame,
      OD.get String.eqb "0123abcd"
             (IMAGE_FRAMES
                (snd (_handle_new_frame new_frame_params (scenario_env true)
                                        Server_init)))
      = Some frame
      /\ chunks frame = split_chunks CHUNK_SIZE_LIMIT "F|AAAA////")
  /\ forall limit, 0 < limit ->
       let chunk_list := split_chunks limit "F|AAAA////" in
       (forall k, k < List.length chunk_list ->
                  nth k chunk_list "" = substring (k * limit) limit "F|AAAA////")
       /\ Forall (fun c => 1 <= String.length c <= limit) chunk_list
       /\ Fmt.concat_all chunk_list = "F|AAAA////"
       /\ (String.length "F|AAAA////" mod limit = 0 ->
           List.length chunk_list = String.length "F|AAAA////" / limit
           /\ Forall (fun c => String.length c = limit) chunk_list).
Proof.
  apply (chunks_reconstruct_payload new_frame_params (scenario_env true)
           Server_init scenario_image
           [("FULL", Some "F|AAAA////"); ("DIFF", None);
            ("FR", Some "FR|000000,1|ffffff,1");
            ("IDX", Some "I|0|000000,ffffff|01"); ("D_IDX", None);
            ("IR", Some "IR|0|000000,ffffff|0,1|1,1")]
           (snd scenario_candidates) "FULL" "F|AAAA////").
  - vm_compute. lia.
  - reflexivity.
  - vm_compute. reflexivity.
  - vm_compute. reflexivity.
Defined.

Lemma palette_identity_witness :
  exists pid created palette self1 self2,
    get_or_create_palette [black; white] (PaletteManager_init 2)
    = (Ret (pid, created, palette), self1)
    /\ get_or_create_palette [black; white] self1
       = (Ret (pid, false, palette), self2)
    /\ In pid (OD.keys (palettes self1))
    /\ In pid (OD.keys (palettes self2)).
Proof.
  apply (palette_identity 2 [] [black; white] [black; white]).
  - lia.
  - reflexivity.
Defined.

(* ====================================================================== *)
(** * Further properties of the code *)
(* ====================================================================== *)

(** ** Run-length encoding is canonical *)

Section RLE_canonical.
Context {A : Type}.
Variable eqb : A -> A -> bool.
Hypothesis eqb_spec : forall x y, eqb x y = true <-> x = y.

Lemma rle_loop_acc (it : list A) :
  forall prev_val count encoded,
    rle_loop eqb it prev_val count encoded
    = (encoded ++ rle_loop eqb it prev_val count [])%list.
Proof.
  induction it as [|val it IH]; intros prev_val count encoded; simpl.
  - reflexivity.
  - destruct (eqb val prev_val); [apply IH|].
    rewrite IH, (IH val 1 [(prev_val, count)]).
    now rewrite <- app_assoc.
Qed.

Lemma rle_loop_head (it : list A) :
  forall prev_val count,
    exists n rest,
      rle_loop eqb it prev_val count [] = (prev_val, n) :: rest
      /\ count <= n.
Proof.
  induction it as [|val it IH]; intros prev_val count; simpl.
  - now exists count, [].
  - destruct (eqb val prev_val).
    + destruct (IH prev_val (S count)) as [n [rest [-> Hn]]].
      exists n, rest. split; [reflexivity|lia].
    + rewrite rle_loop_acc. simpl. now eexists _, _.
Qed.

Lemma rle_loop_runs_ok (it : list A) :
  forall prev_val count,
    1 <= count -> runs_ok (rle_loop eqb it prev_val count []).
Proof.
  induction it as [|val it IH]; intros prev_val count Hc; simpl.
  - tauto.
  - destruct (eqb val prev_val) eqn:E.
    + apply IH. lia.
    + rewrite rle_loop_acc. simpl.
      destruct (rle_loop_head it val 1) as [n [rest [Heq Hn]]].
      pose proof (IH val 1 (le_n 1)) as Hok. rewrite Heq in *.
      split; [exact Hc|]. split; [|exact Hok].
      intros ->. rewrite (proj2 (eqb_spec val val) eq_refl) in E.
      discriminate.
Qed.

(** The output of [_rle_encode] never has an empty run, and never two
    neighbouring runs of the same symbol. *)
Theorem rle_encode_runs_ok (data_stream : list A) :
  runs_ok (_rle_encode eqb data_stream).
Proof.
  destruct data_stream as [|prev_val it]; simpl; [exact I|].
  now apply rle_loop_runs_ok.
Qed.

Lemma rle_loop_repeat (a : A) (k : nat) :
  forall tail count,
    rle_loop eqb (repeat a k ++ tail)%list a count []
    = rle_loop eqb tail a (count + k) [].
Proof.
  induction k as [|k IH]; intros tail count; simpl.
  - now rewrite Nat.add_0_r.
  - rewrite (proj2 (eqb_spec a a) eq_refl), IH. f_equal. lia.
Qed.

(** Encoding the expansion of a well-formed list of runs gives that list
    back: together with the round trip of expansion after encoding, the
    encoder is a bijection between sequences and well-formed run lists. *)
Theorem rle_encode_expand (encoded : list (A * nat)) :
  runs_ok encoded -> _rle_encode eqb (rle_expand encoded) = encoded.
Proof.
  induction encoded as [|[a n] rest IH]; simpl; intros H; [reflexivity|].
  destruct H as [Hn [Hadj Hrest]]. specialize (IH Hrest).
  destruct n as [|n]; [lia|]. simpl.
  rewrite rle_loop_repeat.
  destruct rest as [|[b m] rest']; simpl.
  - reflexivity.
  - simpl in Hrest. destruct Hrest as [Hm _].
    destruct m as [|m]; [lia|]. simpl in *.
    destruct (eqb b a) eqn:E; [apply eqb_spec in E; congruence|].
    rewrite rle_loop_acc. simpl. f_equal. exact IH.
Qed.

End RLE_canonical.

Lemma rle_encode_runs_ok_witness :
  runs_ok (_rle_encode Nat.eqb [4; 4; 2; 4]).
Proof. apply (rle_encode_runs_ok Nat.eqb Nat.eqb_eq). Defined.

Lemma rle_encode_expand_witness :
  _rle_encode Nat.eqb (rle_expand [(4, 2); (2, 1); (4, 3)])
  = [(4, 2); (2, 1); (4, 3)].
Proof.
  apply (rle_encode_expand Nat.eqb Nat.eqb_eq). simpl. repeat split; lia.
Defined.

(** ** Sizes and shapes of the [FULL] and [FULL_RLE] payloads *)

Lemma string_length_app (s t : string) :
  String.length (s ++ t) = String.length s + String.length t.
Proof. induction s as [|c s IH]; simpl; [reflexivity|now rewrite IH]. Qed.

Lemma b64encode_length_upto (n : nat) :
  forall data, List.length data <= n ->
    String.length (Base64.b64encode data) = 4 * ((List.length data + 2) / 3).
Proof.
  induction n as [n IH] using lt_wf_ind. intros data Hlen.
  destruct data as [|a [|b [|c rest]]]; try reflexivity.
  cbn [Base64.b64encode String.length List.length].
  rewrite (IH (List.length rest)); [|simpl in Hlen; lia|lia].
  replace (S (S (S (List.length rest))) + 2)
    with (1 * 3 + (List.length rest + 2)) by lia.
  rewrite Nat.div_add_l by lia. lia.
Qed.

Lemma b64encode_length (data : list byte) :
  String.length (Base64.b64encode data) = 4 * ((List.length data + 2) / 3).
Proof. now apply (b64encode_length_upto (List.length data)). Qed.

Lemma tobytes_length (image : PixelBuffer) :
  List.length (tobytes image) = 3 * List.length (reshape image).
Proof.
  unfold tobytes. induction (reshape image) as [|[[r g] b] l IH]; simpl;
    [reflexivity|]. rewrite IH. lia.
Qed.

(** The [FULL] payload of a buffer of P pixels is exactly 2 + 4 P
    characters long: three bytes per pixel never need base64 padding. *)
Theorem full_update_length (image : PixelBuffer) :
  String.length (_create_full_update image)
  = 2 + 4 * List.length (reshape image).
Proof.
  unfold _create_full_update. simpl String.length.
  rewrite b64encode_length, tobytes_length.
  replace (3 * List.length (reshape image) + 2)
    with (List.length (reshape image) * 3 + 2) by lia.
  rewrite Nat.div_add_l by lia. simpl. lia.
Qed.

Lemma hex02_chan_length (b : byte) :
  String.length (Fmt.hex02 (chan b)) = 2.
Proof. destruct b; vm_compute; reflexivity. Qed.

Lemma unhex2_hex02 (b : byte) : unhex2 (Fmt.hex02 (chan b)) = Some b.
Proof. destruct b; vm_compute; reflexivity. Qed.

Lemma two_chars (s : string) :
  String.length s = 2 -> exists a b, s = String a (String b "").
Proof.
  destruct s as [|a [|b [|c s]]]; simpl; try discriminate.
  intros _. now exists a, b.
Qed.

Lemma hex_color_chars (p : pixel) :
  exists r1 r2 g1 g2 b1 b2,
    hex_color p
    = String r1 (String r2 (String g1 (String g2 (String b1 (String b2 "")))))
    /\ unhex2 (String r1 (String r2 "")) = Some (fst (fst p))
    /\ unhex2 (String g1 (String g2 "")) = Some (snd (fst p))
    /\ unhex2 (String b1 (String b2 "")) = Some (snd p).
Proof.
  destruct p as [[r g] b]. unfold hex_color.
  destruct (two_chars _ (hex02_chan_length r)) as [r1 [r2 Hr]].
  destruct (two_chars _ (hex02_chan_length g)) as [g1 [g2 Hg]].
  destruct (two_chars _ (hex02_chan_length b)) as [b1 [b2 Hb]].
  pose proof (unhex2_hex02 r) as Ur. pose proof (unhex2_hex02 g) as Ug.
  pose proof (unhex2_hex02 b) as Ub.
  rewrite Hr, Hg, Hb in *. exists r1, r2, g1, g2, b1, b2.
  repeat split; assumption.
Qed.

Lemma hex_color_inj (p q : pixel) : hex_color p = hex_color q -> p = q.
Proof.
  intros H.
  destruct (hex_color_chars p)
    as [r1 [r2 [g1 [g2 [b1 [b2 [Hp [Pr [Pg Pb]]]]]]]]].
  destruct (hex_color_chars q)
    as [s1 [s2 [h1 [h2 [c1 [c2 [Hq [Qr [Qg Qb]]]]]]]]].
  rewrite Hp, Hq in H. inversion H; subst.
  destruct p as [[pr pg] pb], q as [[qr qg] qb]. simpl in *. congruence.
Qed.

(** Every color is written with six hexadecimal digits, and reading them
    back gives the color. *)
Theorem hex_color_roundtrip (p : pixel) :
  String.length (hex_color p) = 6 /\ unhex_color (hex_color p) = Some p.
Proof.
  destruct (hex_color_chars p)
    as [r1 [r2 [g1 [g2 [b1 [b2 [Hp [Pr [Pg Pb]]]]]]]]].
  rewrite Hp. split; [reflexivity|].
  unfold unhex_color. cbn [substring].
  rewrite Pr, Pg, Pb. now destruct p as [[r g] b].
Qed.

Lemma hex_color_eqb (p q : pixel) :
  String.eqb (hex_color p) (hex_color q) = pixel_eqb p q.
Proof.
  destruct (pixel_eqb p q) eqn:E.
  - apply pixel_eqb_eq in E. subst. apply String.eqb_refl.
  - apply String.eqb_neq. intros H. apply hex_color_inj in H.
    apply pixel_eqb_eq in H. congruence.
Qed.

Lemma rle_loop_map {A B : Type} (eqbA : A -> A -> bool)
      (eqbB : B -> B -> bool) (f : A -> B)
      (Hf : forall x y, eqbB (f x) (f y) = eqbA x y) (it : list A) :
  forall prev_val count encoded,
    rle_loop eqbB (map f it) (f prev_val) count
             (map (fun run => (f (fst run), snd run)) encoded)
    = map (fun run => (f (fst run), snd run))
          (rle_loop eqbA it prev_val count encoded).
Proof.
  induction it as [|val it IH]; intros prev_val count encoded; simpl.
  - now rewrite map_app.
  - rewrite Hf. destruct (eqbA val prev_val); [apply IH|].
    rewrite <- IH. f_equal. now rewrite map_app.
Qed.

(** [FULL_RLE] declines exactly on a buffer without pixels; otherwise its
    payload lists the maximal runs of equal pixels in scan order, each as
    color and hexadecimal run length. *)
Theorem full_rle_update_runs (image : PixelBuffer) :
  (_create_full_rle_update image = None <-> reshape image = [])
  /\ (reshape image <> [] ->
      _create_full_rle_update image
      = Some ("FR|" ++ Fmt.join "|"
                         (map pixel_run
                              (_rle_encode pixel_eqb (reshape image))))).
Proof.
  unfold _create_full_rle_update.
  assert (Hmap : _rle_encode String.eqb (map hex_color (reshape image))
                 = map (fun run => (hex_color (fst run), snd run))
                       (_rle_encode pixel_eqb (reshape image))).
  { destruct (reshape image) as [|p l]; simpl; [reflexivity|].
    apply (rle_loop_map pixel_eqb String.eqb hex_color hex_color_eqb l p 1 []). }
  rewrite Hmap. split.
  - split.
    + destruct (reshape image) as [|p l]; [reflexivity|]. simpl.
      destruct (rle_loop pixel_eqb l p 1 []) eqn:E;
        [now apply rle_loop_not_nil in E|discriminate].
    + intros ->. reflexivity.
  - intros Hne.
    destruct (_rle_encode pixel_eqb (reshape image)) eqn:E.
    + apply rle_encode_nil in E. contradiction.
    + rewrite map_map. reflexivity.
Qed.

(** ** The changed pixels *)

Lemma diff_row_iff (row : list pixel) :
  forall prev_row y x0 c,
    List.length row = List.length prev_row ->
    (In c (diff_row y x0 row prev_row)
     <-> fst c = y /\ x0 <= snd c /\ snd c - x0 < List.length row
         /\ nth (snd c - x0) row (x00, x00, x00)
            <> nth (snd c - x0) prev_row (x00, x00, x00)).
Proof.
  induction row as [|p row IH]; intros [|q prev_row] y x0 c Hlen;
    simpl in Hlen; try discriminate.
  - simpl. split; [tauto|]. lia.
  - injection Hlen as Hlen. specialize (IH prev_row y (S x0) c Hlen).
    assert (Hshift : forall l : list pixel,
               x0 < snd c ->
               nth (snd c - x0) (p :: l) (x00, x00, x00)
               = nth (snd c - S x0) l (x00, x00, x00)).
    { intros l Hlt. replace (snd c - x0) with (S (snd c - S x0)) by lia.
      reflexivity. }
    assert (Hshift' : forall l : list pixel,
               x0 < snd c ->
               nth (snd c - x0) (q :: l) (x00, x00, x00)
               = nth (snd c - S x0) l (x00, x00, x00)).
    { intros l Hlt. replace (snd c - x0) with (S (snd c - S x0)) by lia.
      reflexivity. }
    assert (Hrec : In c (diff_row y (S x0) row prev_row)
                   <-> fst c = y /\ x0 < snd c
                       /\ snd c - x0 < S (List.length row)
                       /\ nth (snd c - x0) (p :: row) (x00, x00, x00)
                          <> nth (snd c - x0) (q :: prev_row) (x00, x00, x00)).
    { rewrite IH. split.
      - intros [H1 [H2 [H3 H4]]].
        rewrite Hshift, Hshift' by lia. repeat split; try lia. exact H4.
      - intros [H1 [H2 [H3 H4]]].
        rewrite Hshift, Hshift' in H4 by lia. repeat split; try lia.
        exact H4. }
    simpl diff_row. simpl List.length.
    destruct (pixel_eqb p q) eqn:E.
    + apply pixel_eqb_eq in E. subst q. rewrite Hrec. split.
      * intros [H1 [H2 H3]]. repeat split; try lia; tauto.
      * intros [H1 [H2 [H3 H4]]].
        destruct (Nat.eq_dec (snd c) x0) as [Heq|Hne].
        -- rewrite Heq, Nat.sub_diag in H4. simpl in H4. congruence.
        -- repeat split; try lia. exact H4.
    + assert (Hpq : p <> q).
      { intros Heq. apply pixel_eqb_eq in Heq. congruence. }
      simpl In. rewrite Hrec. split.
      * intros [<-|[H1 [H2 H3]]].
        -- simpl. rewrite Nat.sub_diag. simpl. repeat split; try lia.
           exact Hpq.
        -- repeat split; try lia; tauto.
      * intros [H1 [H2 [H3 H4]]].
        destruct (Nat.eq_dec (snd c) x0) as [Heq|Hne].
        -- left. destruct c as [cy cx]. simpl in *. congruence.
        -- right. repeat split; try lia. exact H4.
Qed.

Lemma diff_rows_iff (image : PixelBuffer) :
  forall prev y0 c,
    same_shape image prev ->
    (In c (diff_rows y0 image prev)
     <-> y0 <= fst c /\ fst c - y0 < List.length image
         /\ snd c < List.length (nth (fst c - y0) image [])
         /\ nth (snd c) (nth (fst c - y0) image []) (x00, x00, x00)
            <> nth (snd c) (nth (fst c - y0) prev []) (x00, x00, x00)).
Proof.
  induction image as [|row rows IH]; intros prev y0 c Hshape;
    inversion Hshape as [|? prev_row ? prev_rows Hrow Hrest]; subst.
  - simpl. split; [tauto|]. lia.
  - simpl diff_rows. rewrite in_app_iff, (diff_row_iff row prev_row y0 0 c Hrow),
      (IH prev_rows (S y0) c Hrest). rewrite Nat.sub_0_r. simpl List.length.
    split.
    + intros [[H1 [_ [H3 H4]]]|[H1 [H2 [H3 H4]]]].
      * rewrite H1, Nat.sub_diag. simpl. repeat split; try lia. exact H4.
      * replace (fst c - y0) with (S (fst c - S y0)) by lia. simpl.
        repeat split; try lia; assumption.
    + intros [H1 [H2 [H3 H4]]].
      destruct (Nat.eq_dec (fst c) y0) as [Heq|Hne].
      * left. rewrite Heq, Nat.sub_diag in H3, H4. simpl in H3, H4.
        repeat split; try lia; assumption.
      * right. replace (fst c - y0) with (S (fst c - S y0)) in H3, H4 by lia.
        simpl in H3, H4. repeat split; try lia; assumption.
Qed.

Lemma ss_app {A : Type} (R : A -> A -> Prop) (l1 l2 : list A) :
  StronglySorted R l1 -> StronglySorted R l2 ->
  (forall a b, In a l1 -> In b l2 -> R a b) ->
  StronglySorted R (l1 ++ l2)%list.
Proof.
  induction 1 as [|a l1 Hs IH Ha]; intros H2 Hcross; simpl; [exact H2|].
  constructor.
  - apply IH; [exact H2|]. intros x y Hx Hy. apply Hcross; [now right|exact Hy].
  - apply Forall_app. split; [exact Ha|].
    apply Forall_forall. intros y Hy. apply Hcross; [now left|exact Hy].
Qed.

Lemma diff_row_sorted (row : list pixel) :
  forall prev_row y x0,
    StronglySorted scan_before (diff_row y x0 row prev_row)
    /\ forall c, In c (diff_row y x0 row prev_row) -> fst c = y /\ x0 <= snd c.
Proof.
  induction row as [|p row IH]; intros [|q prev_row] y x0; simpl;
    try (split; [constructor|intros c []]).
  destruct (IH prev_row y (S x0)) as [Hs Hin].
  destruct (pixel_eqb p q).
  - split; [exact Hs|]. intros c Hc. apply Hin in Hc. lia.
  - split.
    + constructor; [exact Hs|]. apply Forall_forall. intros c Hc.
      apply Hin in Hc. unfold scan_before. simpl. lia.
    + intros c [<-|Hc]; [simpl; lia|]. apply Hin in Hc. lia.
Qed.

Lemma diff_rows_sorted (image : PixelBuffer) :
  forall prev y0,
    StronglySorted scan_before (diff_rows y0 image prev)
    /\ forall c, In c (diff_rows y0 image prev) -> y0 <= fst c.
Proof.
  induction image as [|row rows IH]; intros [|prev_row prev_rows] y0; simpl;
    try (split; [constructor|intros c []]).
  destruct (IH prev_rows (S y0)) as [Hs Hin].
  destruct (diff_row_sorted row prev_row y0 0) as [Hrs Hrin].
  split.
  - apply ss_app; [exact Hrs|exact Hs|].
    intros a b Ha Hb. apply Hrin in Ha. apply Hin in Hb.
    unfold scan_before. lia.
  - intros c Hc. apply in_app_iff in Hc. destruct Hc as [Hc|Hc].
    + apply Hrin in Hc. lia.
    + apply Hin in Hc. lia.
Qed.

(** For two buffers of the same shape, the coordinates the delta encoders
    work on are exactly the positions of the new buffer whose pixel differs
    from the previous buffer, listed in row-major scan order, each once. *)
Theorem diff_coords_spec (image prev : PixelBuffer) :
  same_shape image prev ->
  (forall y x,
      In (y, x) (diff_coords image prev)
      <-> y < List.length image /\ x < List.length (nth y image [])
          /\ pixel_at image y x <> pixel_at prev y x)
  /\ StronglySorted scan_before (diff_coords image prev).
Proof.
  intros Hshape. split.
  - intros y x. unfold diff_coords, pixel_at.
    rewrite (diff_rows_iff image prev 0 (y, x) Hshape). simpl.
    rewrite Nat.sub_0_r. split.
    + intros [_ H]. exact H.
    + intros H. split; [lia|exact H].
  - apply diff_rows_sorted.
Qed.

Lemma diff_row_same (row : list pixel) :
  forall y x0, diff_row y x0 row row = [].
Proof.
  induction row as [|p row IH]; intros y x0; simpl; [reflexivity|].
  rewrite (proj2 (pixel_eqb_eq p p) eq_refl). apply IH.
Qed.

Lemma diff_rows_same (image : PixelBuffer) :
  forall y0, diff_rows y0 image image = [].
Proof.
  induction image as [|row rows IH]; intros y0; simpl; [reflexivity|].
  now rewrite diff_row_same, IH.
Qed.

(** When the new buffer equals the previous one, both delta encoders
    decline, whatever the palette cache and the client hint. *)
Theorem unchanged_frame_no_delta (image : PixelBuffer)
        (client_cached_pids : list Z) (self : PaletteManager) :
  _create_diff_update image (Some image) = None
  /\ _create_diff_indexed_update image (Some image) client_cached_pids self
     = (Ret None, self).
Proof.
  unfold _create_diff_update, _create_diff_indexed_update, diff_coords.
  rewrite diff_rows_same. split; [reflexivity|].
  destruct (negb _); reflexivity.
Qed.

Lemma diff_row_nil (row : list pixel) :
  forall prev_row y x0,
    List.length row = List.length prev_row ->
    diff_row y x0 row prev_row = [] -> row = prev_row.
Proof.
  induction row as [|p row IH]; intros [|q prev_row] y x0 Hlen H;
    simpl in *; try discriminate; [reflexivity|].
  destruct (pixel_eqb p q) eqn:E; [|discriminate].
  apply pixel_eqb_eq in E. subst q. f_equal.
  apply (IH prev_row y (S x0)); [lia|exact H].
Qed.

Lemma diff_rows_nil (image : PixelBuffer) :
  forall prev y0,
    same_shape image prev -> diff_rows y0 image prev = [] -> image = prev.
Proof.
  induction image as [|row rows IH]; intros prev y0 Hshape H;
    inversion Hshape as [|? prev_row ? prev_rows Hrow Hrest]; subst;
    [reflexivity|].
  simpl in H. apply app_eq_nil in H. destruct H as [H1 H2].
  f_equal; [now apply (diff_row_nil row prev_row y0 0)|].
  now apply (IH prev_rows (S y0)).
Qed.

(** With a previous buffer of the same shape, [DIFF] declines exactly when
    the new buffer equals the previous one; with no previous buffer it
    always declines. *)
Theorem diff_update_declines (image prev : PixelBuffer) :
  same_shape image prev ->
  (_create_diff_update image (Some prev) = None <-> image = prev)
  /\ _create_diff_update image None = None.
Proof.
  intros Hshape. split; [|reflexivity]. unfold _create_diff_update. split.
  - destruct (diff_coords image prev) eqn:D; [|discriminate].
    intros _. now apply (diff_rows_nil image prev 0).
  - intros <-. unfold diff_coords. now rewrite diff_rows_same.
Qed.

(** ** Palette indices *)

Lemma color_to_idx_from_sound (palette : list pixel) :
  forall i acc p j,
    OD.get pixel_eqb p (color_to_idx_from i palette acc) = Some j ->
    (i <= j /\ nth_error palette (j - i) = Some p)
    \/ OD.get pixel_eqb p acc = Some j.
Proof.
  induction palette as [|color rest IH]; intros i acc p j H; simpl in H.
  - now right.
  - apply IH in H. destruct H as [[Hle Hnth]|H].
    + left. split; [lia|].
      replace (j - i) with (S (j - S i)) by lia. exact Hnth.
    + destruct (pixel_eq_dec p color) as [->|Hne].
      * rewrite (od_get_set_same pixel_eqb pixel_eqb_eq) in H.
        inversion H; subst. left. rewrite Nat.sub_diag. now split.
      * rewrite (od_get_set_other pixel_eqb pixel_eqb_eq) in H by exact Hne.
        now right.
Qed.

Lemma color_to_idx_from_complete (palette : list pixel) :
  forall i acc p,
    OD.get pixel_eqb p (color_to_idx_from i palette acc) <> None ->
    In p palette \/ OD.get pixel_eqb p acc <> None.
Proof.
  induction palette as [|color rest IH]; intros i acc p H; simpl in H.
  - now right.
  - apply IH in H. destruct H as [H|H]; [left; now right|].
    destruct (pixel_eq_dec p color) as [->|Hne]; [left; now left|].
    rewrite (od_get_set_other pixel_eqb pixel_eqb_eq) in H by exact Hne.
    now right.
Qed.

Lemma lookup_indices_sound (palette pixels : list pixel) :
  forall indices,
    lookup_indices (color_to_idx palette) pixels = Some indices ->
    Forall2 (fun p i => nth_error palette i = Some p) pixels indices.
Proof.
  induction pixels as [|p pixels IH]; simpl; intros indices H.
  - inversion H. constructor.
  - destruct (OD.get pixel_eqb p (color_to_idx palette)) as [i|] eqn:G;
      [|discriminate].
    destruct (lookup_indices (color_to_idx palette) pixels) as [idxs|];
      [|discriminate].
    inversion H; subst. constructor; [|now apply IH].
    apply color_to_idx_from_sound in G. simpl in G.
    destruct G as [[_ G]|G]; [|discriminate].
    now rewrite Nat.sub_0_r in G.
Qed.

(** Every index the indexed encoders emit for a pixel points at that
    pixel's color in the palette; the lookup fails (the source raises
    [KeyError]) exactly when some pixel's color is missing from the
    palette. *)
Theorem palette_index_roundtrip (palette pixels : list pixel) :
  (forall indices,
      lookup_indices (color_to_idx palette) pixels = Some indices ->
      Forall2 (fun p i => nth_error palette i = Some p) pixels indices)
  /\ (lookup_indices (color_to_idx palette) pixels = None
      <-> exists p, In p pixels /\ ~ In p palette).
Proof.
  split; [apply lookup_indices_sound|]. split.
  - induction pixels as [|p pixels IH]; simpl; [discriminate|].
    destruct (OD.get pixel_eqb p (color_to_idx palette)) as [i|] eqn:G.
    + destruct (lookup_indices (color_to_idx palette) pixels); [discriminate|].
      intros _. destruct (IH eq_refl) as [q [Hq Hn]].
      exists q. split; [now right|exact Hn].
    + intros _. exists p. split; [now left|]. intros Hin.
      revert G. apply color_to_idx_from_get. now left.
  - intros [p [Hin Hnot]].
    destruct (lookup_indices (color_to_idx palette) pixels) as [idxs|] eqn:L;
      [|reflexivity].
    exfalso. apply Hnot. clear Hnot.
    revert idxs L. induction pixels as [|q pixels IH]; intros idxs L;
      [contradiction|]. simpl in L.
    destruct (OD.get pixel_eqb q (color_to_idx palette)) as [i|] eqn:G;
      [|discriminate].
    destruct (lookup_indices (color_to_idx palette) pixels) as [idxs'|];
      [|discriminate].
    destruct Hin as [->|Hin]; [|now apply (IH Hin idxs')].
    assert (Hne : OD.get pixel_eqb p (color_to_idx palette) <> None)
      by congruence.
    apply color_to_idx_from_complete in Hne. simpl in Hne. tauto.
Qed.

(** ** The frame store *)




(** ** The server over sequences of requests *)

Lemma goc_pm_ok (self : PaletteManager) (unique_colors : list pixel) :
  pm_ok self -> pm_ok (snd (get_or_create_palette unique_colors self)).
Proof.
  intros [Hmax [hist Hinv]]. split.
  - now rewrite goc_max_size.
  - eexists. apply goc_preserves. exact Hinv.
Qed.

Lemma indexed_update_store (image : PixelBuffer)
      (client_cached_pids : list Z) (self : PaletteManager) :
  let s' := snd (_create_indexed_update image client_cached_pids self) in
  s' = self
  \/ s' = snd (get_or_create_palette (np_unique (reshape image)) self).
Proof.
  unfold _create_indexed_update.
  destruct (negb _); [now left|]. right. unfold bind.
  destruct (get_or_create_palette _ self) as [[[[pid new] pal]|e] s1];
    [|reflexivity].
  unfold or_raise. destruct (lookup_indices _ _); reflexivity.
Qed.

Lemma indexed_rle_update_store (image : PixelBuffer)
      (client_cached_pids : list Z) (self : PaletteManager) :
  let s' := snd (_create_indexed_rle_update image client_cached_pids self) in
  s' = self
  \/ s' = snd (get_or_create_palette (np_unique (reshape image)) self).
Proof.
  unfold _create_indexed_rle_update.
  destruct (negb _); [now left|]. right. unfold bind.
  destruct (get_or_create_palette _ self) as [[[[pid new] pal]|e] s1];
    [|reflexivity].
  unfold or_raise. destruct (lookup_indices _ _); [|reflexivity].
  simpl. destruct (_rle_encode _ _); reflexivity.
Qed.

Lemma diff_indexed_update_store (image : PixelBuffer)
      (prev_data : option PixelBuffer) (client_cached_pids : list Z)
      (self : PaletteManager) :
  let s' := snd (_create_diff_indexed_update image prev_data
                   client_cached_pids self) in
  s' = self
  \/ s' = snd (get_or_create_palette (np_unique (reshape image)) self).
Proof.
  unfold _create_diff_indexed_update.
  destruct prev_data as [prev|]; [|now left].
  destruct (negb _); [now left|].
  destruct (diff_coords image prev); [now left|]. right. unfold bind.
  destruct (get_or_create_palette _ self) as [[[[pid new] pal]|e] s1];
    [|reflexivity].
  unfold or_raise. destruct (lookup_indices _ _); reflexivity.
Qed.

Ltac encoder_ok H Hstore :=
  destruct Hstore as [Hs|Hs]; rewrite Hs; [exact H|now apply goc_pm_ok].

Lemma candidates_pm_ok (image : PixelBuffer)
      (prev_frame_data : option PixelBuffer) (client_cached_pids : list Z)
      (self : PaletteManager) :
  pm_ok self ->
  pm_ok (snd (candidates_of image prev_frame_data client_cached_pids self)).
Proof.
  intros H0. unfold candidates_of, bind.
  assert (H1 : pm_ok (snd (_create_indexed_update image client_cached_pids
                             self))).
  { pose proof (indexed_update_store image client_cached_pids self) as Hst.
    cbv zeta in Hst. encoder_ok H0 Hst. }
  destruct (_create_indexed_update image client_cached_pids self)
    as [[idx|e] s1]; [|exact H1]. simpl in H1.
  assert (H2 : pm_ok (snd (_create_diff_indexed_update image prev_frame_data
                             client_cached_pids s1))).
  { pose proof (diff_indexed_update_store image prev_frame_data
                  client_cached_pids s1) as Hst.
    cbv zeta in Hst. encoder_ok H1 Hst. }
  destruct (_create_diff_indexed_update image prev_frame_data
              client_cached_pids s1) as [[d_idx|e] s2]; [|exact H2].
  simpl in H2.
  assert (H3 : pm_ok (snd (_create_indexed_rle_update image client_cached_pids
                             s2))).
  { pose proof (indexed_rle_update_store image client_cached_pids s2) as Hst.
    cbv zeta in Hst. encoder_ok H2 Hst. }
  destruct (_create_indexed_rle_update image client_cached_pids s2)
    as [[ir|e] s3]; exact H3.
Qed.

Lemma do_GET_server_ok (params : list (string * string)) (env : Env)
      (st : Server) :
  server_ok st -> server_ok (snd (do_GET params env st)).
Proof.
  intros [Hframes Hpm].
  assert (Hdec : params_get "action" params = Some "new_frame"
                 \/ params_get "action" params <> Some "new_frame").
  { destruct (params_get "action" params) as [a|]; [|right; discriminate].
    destruct (string_dec a "new_frame") as [->|Hne];
      [now left|right; congruence]. }
  destruct Hdec as [Ha|Ha];
    [|rewrite do_GET_other_store by exact Ha; now split].
  rewrite (do_GET_new_frame _ _ _ Ha).
  unfold _handle_new_frame, bind, get_store, of_outcome,
    lift_palette_manager, put_store.
  destruct (produced env) as [image|e]; [|now split].
  pose proof (candidates_pm_ok image
                (option_map image_data (OD.last_value (IMAGE_FRAMES st)))
                (parse_cached_pids (params_get "cached_pids" params))
                (palette_manager st) Hpm) as Hpm'.
  destruct (candidates_of image _ _ (palette_manager st))
    as [[cands|e] pm'] eqn:Hc; simpl in Hpm'; [|now split].
  destruct (select_best (valid_candidates cands)) as [[fmt data]|];
    [|now split].
  match goal with
  | |- server_ok (snd (let (o, st') := wfile_write ?e ?b ?s in _)) =>
      pose proof (wfile_write_store e b s) as Hw;
      destruct (wfile_write e b s) as [[r|ex] st'']
  end; simpl in Hw; subst; simpl;
    (split; [now apply store_frame_bounded|exact Hpm']).
Qed.

Lemma Server_init_ok : server_ok Server_init.
Proof.
  split; [simpl; unfold MAX_FRAMES_TO_KEEP; lia|].
  split; [reflexivity|]. exists []. apply pm_inv_init.
Qed.

Lemma serve_ok (requests : list (list (string * string) * Env)) :
  forall st, server_ok st -> server_ok (serve st requests).
Proof.
  induction requests as [|[params env] rest IH]; intros st H; simpl;
    [exact H|]. apply IH. now apply do_GET_server_ok.
Qed.

(** After any sequence of requests, failed ones included, the frame store
    holds at most [MAX_FRAMES_TO_KEEP] frames and the palette cache at most
    [MAX_PALETTES_TO_KEEP] palettes, under pairwise different ids that are
    all below the id counter. *)
Theorem server_bounds (requests : list (list (string * string) * Env)) :
  let st := serve Server_init requests in
  List.length (IMAGE_FRAMES st) <= MAX_FRAMES_TO_KEEP
  /\ List.length (palettes (palette_manager st)) <= MAX_PALETTES_TO_KEEP
  /\ NoDup (OD.keys (palettes (palette_manager st)))
  /\ Forall (fun k => k < next_palette_id (palette_manager st))
            (OD.keys (palettes (palette_manager st))).
Proof.
  intros st.
  destruct (serve_ok requests Server_init Server_init_ok)
    as [Hframes [Hmax [hist Hinv]]].
  fold st in Hframes, Hmax, Hinv.
  split; [exact Hframes|]. split; [|split].
  - rewrite <- Hmax. apply (inv_size _ _ Hinv).
  - apply (pm_inv_NoDup _ _ Hinv).
  - apply Forall_forall. apply (inv_fresh _ _ Hinv).
Qed.






(** ** The response line *)

Lemma CHUNK_SIZE_LIMIT_pos : 0 < CHUNK_SIZE_LIMIT.
Proof. unfold CHUNK_SIZE_LIMIT. lia. Qed.

Lemma string_app_assoc (s t u : string) : (s ++ t) ++ u = s ++ t ++ u.
Proof. induction s as [|c s IH]; simpl; [reflexivity|now rewrite IH]. Qed.

(** The first chunk is sent inline only when it is the whole payload: the
    response line then carries the complete payload and is shorter than
    [CHUNK_SIZE_LIMIT]; in every other case the line is the frame id and
    the chunk count alone. *)
Theorem inline_only_whole_payload (frame_id data_to_send : string) :
  let chunk_list := split_chunks CHUNK_SIZE_LIMIT data_to_send in
  new_frame_body frame_id chunk_list
  = frame_id ++ ";" ++ Fmt.dec (List.length chunk_list)
  \/ (chunk_list = [data_to_send]
      /\ new_frame_body frame_id chunk_list
         = frame_id ++ ";1;" ++ data_to_send
      /\ String.length (new_frame_body frame_id chunk_list)
         < CHUNK_SIZE_LIMIT).
Proof.
  intros chunk_list. pose proof CHUNK_SIZE_LIMIT_pos as Hpos.
  pose proof (Chunks.split_chunks_length CHUNK_SIZE_LIMIT data_to_send)
    as Hcount.
  pose proof (Chunks.split_chunks_nth CHUNK_SIZE_LIMIT data_to_send 0)
    as Hfirst.
  fold chunk_list in Hcount, Hfirst. unfold new_frame_body.
  destruct chunk_list as [|c0 rest] eqn:E; [now left|].
  destruct (_ <? _)%nat eqn:L; [|now left]. right.
  apply Nat.ltb_lt in L.
  simpl in Hfirst. specialize (Hfirst ltac:(lia)). simpl in Hfirst.
  assert (Hc0 : String.length c0
                = Nat.min CHUNK_SIZE_LIMIT (String.length data_to_send)).
  { rewrite Hfirst, Chunks.length_substring. now rewrite Nat.sub_0_r. }
  assert (Hshort : String.length data_to_send < CHUNK_SIZE_LIMIT) by lia.
  assert (Hdata : c0 = data_to_send).
  { rewrite Hfirst. apply Chunks.substring_all. lia. }
  assert (Hone : List.length (c0 :: rest) = 1).
  { rewrite Hcount.
    assert (Hnz : String.length data_to_send <> 0).
    { intros Hz. rewrite Hz, Nat.add_0_l, Nat.div_small in Hcount by lia.
      discriminate. }
    symmetry.
    apply (Nat.div_unique _ _ _ (String.length data_to_send - 1)); lia. }
  simpl in Hone. destruct rest; [|discriminate]. clear Hfirst. subst c0.
  split; [reflexivity|]. split.
  - simpl List.length. change (Fmt.dec 1) with "1".
    now rewrite !string_app_assoc.
  - rewrite !string_length_app in *. simpl String.length in *. lia.
Qed.

(** ** Status codes *)




(** ** Palette ids *)

Lemma goc_below (self : PaletteManager) (hist : list nat)
      (unique_colors : list pixel) :
  pm_inv self hist ->
  (forall k, In k hist -> k < next_palette_id self) ->
  forall k,
    In k (touch (fst (get_or_create_palette unique_colors self)) hist) ->
    k < next_palette_id (snd (get_or_create_palette unique_colors self)).
Proof.
  intros Hinv Hbelow k.
  destruct (find (matches unique_colors) (palettes self)) as [[pid data]|]
    eqn:Hfind.
  - destruct (goc_hit self unique_colors pid data
                (pm_inv_NoDup _ _ Hinv) Hfind) as [l1 [l2 [Hp [_ Hgoc]]]].
    rewrite Hgoc. unfold touch. simpl. intros [<-|Hk]; [|now apply Hbelow].
    apply (inv_fresh _ _ Hinv). rewrite Hp, keys_app, in_app_iff.
    simpl. tauto.
  - rewrite (goc_miss self unique_colors (inv_fresh _ _ Hinv) Hfind).
    destruct (_ <? _)%nat; [|destruct (palettes self)]; unfold touch; simpl;
      try (intros [<-|Hk]; [lia|apply Hbelow in Hk; lia]).
    intros Hk. apply Hbelow in Hk. lia.
Qed.

Lemma pm_run_below (calls : list (list pixel)) :
  forall self hist,
    pm_inv self hist ->
    (forall k, In k hist -> k < next_palette_id self) ->
    forall k, In k (snd (pm_run self hist calls)) ->
              k < next_palette_id (fst (pm_run self hist calls)).
Proof.
  induction calls as [|c calls IH]; intros self hist Hinv Hbelow; simpl.
  - exact Hbelow.
  - pose proof (goc_preserves self hist c Hinv) as Hinv'.
    pose proof (goc_below self hist c Hinv Hbelow) as Hbelow'.
    destruct (get_or_create_palette c self) as [r self']. simpl in *.
    now apply IH.
Qed.

(** Palette ids are never reused.  In a cache reached from the empty one,
    a call that reports [created = true] returns the current value of the
    id counter, which no earlier call has returned, and advances the
    counter by one; a call that reports [created = false] returns the id of
    an entry that is in the cache and leaves the counter alone. *)
Theorem palette_ids_never_reused (size : nat) (calls : list (list pixel))
        (unique_colors : list pixel) :
  let self := fst (pm_run (PaletteManager_init size) [] calls) in
  let hist := snd (pm_run (PaletteManager_init size) [] calls) in
  forall pid created palette self1,
    get_or_create_palette unique_colors self
    = (Ret (pid, created, palette), self1) ->
    (created = true ->
     ~ In pid hist /\ pid = next_palette_id self
     /\ next_palette_id self1 = S pid)
    /\ (created = false ->
        In pid hist /\ In pid (OD.keys (palettes self))
        /\ next_palette_id self1 = next_palette_id self).
Proof.
  intros self hist pid created palette self1 Hgoc.
  assert (Hinv : pm_inv self hist) by (apply pm_run_inv, pm_inv_init).
  assert (Hbelow : forall k, In k hist -> k < next_palette_id self).
  { apply pm_run_below; [apply pm_inv_init|intros k []]. }
  destruct (find (matches unique_colors) (palettes self)) as [[p data]|]
    eqn:Hfind.
  - destruct (goc_hit self unique_colors p data
                (pm_inv_NoDup _ _ Hinv) Hfind) as [l1 [l2 [Hp [_ Hhit]]]].
    rewrite Hhit in Hgoc. inversion Hgoc; subst.
    split; [discriminate|]. intros _.
    assert (Hkey : In pid (OD.keys (palettes self))).
    { rewrite Hp, keys_app, in_app_iff. simpl. tauto. }
    split; [now apply (inv_touched _ _ Hinv)|]. split; [exact Hkey|].
    reflexivity.
  - rewrite (goc_miss self unique_colors (inv_fresh _ _ Hinv) Hfind) in Hgoc.
    destruct (_ <? _)%nat; [|destruct (palettes self)];
      inversion Hgoc; subst; (split; [intros _|discriminate]);
      (split; [intros Hin; apply Hbelow in Hin; lia|now split]).
Qed.

(** ** The [cached_pids] hint *)














Lemma join_not_empty (parts : list string) :
  parts <> [] -> Forall (fun p => p <> "") parts ->
  Fmt.join "," parts <> "".
Proof.
  destruct parts as [|p parts]; [congruence|]. intros _ H.
  inversion H as [|? ? Hp _]; subst.
  destruct p as [|c p]; [congruence|].
  destruct parts; simpl; discriminate.
Qed.




(** ** The [INDEXED] payload *)

Lemma join_hex_colors_not_empty (palette : list pixel) :
  palette <> [] -> Fmt.join "," (map hex_color palette) <> "".
Proof.
  intros Hne. apply join_not_empty.
  - destruct palette; [congruence|discriminate].
  - apply Forall_forall. intros s Hs. apply in_map_iff in Hs.
    destruct Hs as [p [<- _]]. intros Hempty.
    destruct (hex_color_chars p) as [r1 [r2 [g1 [g2 [b1 [b2 [Hp _]]]]]]].
    rewrite Hp in Hempty. discriminate.
Qed.

(** In a cache reached from the empty one (capacity at least 1), for a
    buffer with 1 < n <= 256 distinct colors, the [INDEXED] payload is
    [I|pid|table|digits] where: the palette is the sorted list of the
    buffer's distinct colors; every digit group is the position of its
    pixel's color in that palette; and the color table is left out exactly
    when the palette was already cached and the client's hint contains its
    id. *)
Theorem indexed_payload (image : PixelBuffer) (client_cached_pids : list Z)
        (size : nat) (calls : list (list pixel)) :
  1 <= size ->
  1 < distinct_colors image <= MAX_PALETTE_COLORS ->
  let self := fst (pm_run (PaletteManager_init size) [] calls) in
  let palette := np_unique (reshape image) in
  exists pid created indices self1,
    get_or_create_palette palette self = (Ret (pid, created, palette), self1)
    /\ Forall2 (fun p i => nth_error palette i = Some p)
               (reshape image) indices
    /\ _create_indexed_update image client_cached_pids self
       = (Ret (Some ("I|" ++ Fmt.dec pid ++ "|"
                     ++ palette_payload_of created pid client_cached_pids
                          palette
                     ++ "|"
                     ++ Fmt.concat_all
                          (map (hex_format (List.length palette)) indices))),
          self1)
    /\ (palette_payload_of created pid client_cached_pids palette = ""
        <-> created = false /\ pid_in pid client_cached_pids = true).
Proof.
  intros Hsize Hn self palette.
  set (hist := snd (pm_run (PaletteManager_init size) [] calls)).
  assert (Hinv : pm_inv self hist) by (apply pm_run_inv, pm_inv_init).
  assert (Hmax : 1 <= max_size self)
    by (unfold self; now rewrite pm_run_max_size).
  rewrite <- np_unique_count in Hn. fold palette in Hn.
  destruct (goc_palette self hist palette Hinv Hmax)
    as [pid [created [self1 Hgoc]]].
  destruct (lookup_indices_total palette (reshape image)) as [indices Hidx].
  { intros p Hp. now apply np_unique_In. }
  exists pid, created, indices, self1.
  split; [exact Hgoc|]. split.
  { now apply lookup_indices_sound. }
  split.
  - unfold _create_indexed_update. fold palette.
    rewrite (proj2 (palette_bound_spec _) Hn). simpl.
    unfold bind. rewrite Hgoc, Hidx. reflexivity.
  - unfold palette_payload_of.
    assert (Hne : Fmt.join "," (map hex_color palette) <> "").
    { apply join_hex_colors_not_empty. intros Hnil. rewrite Hnil in Hn.
      simpl in Hn. lia. }
    destruct created, (pid_in pid client_cached_pids); simpl;
      split; try tauto; try congruence;
      try (intros [? ?]; congruence).
Qed.

(** ** Palettes depend on the set of colors only *)

Lemma sorted_pixels_ext (l1 : list pixel) :
  forall l2,
    StronglySorted pixel_lt l1 -> StronglySorted pixel_lt l2 ->
    (forall x, In x l1 <-> In x l2) -> l1 = l2.
Proof.
  induction l1 as [|a l1 IH]; intros l2 H1 H2 Hext.
  - destruct l2 as [|b l2]; [reflexivity|].
    exfalso. apply (Hext b). now left.
  - destruct l2 as [|b l2]; [exfalso; apply (Hext a); now left|].
    apply StronglySorted_inv in H1, H2.
    destruct H1 as [H1 Ha], H2 as [H2 Hb].
    rewrite Forall_forall in Ha, Hb.
    assert (Hab : a = b).
    { destruct (proj1 (Hext a) (or_introl eq_refl)) as [Heq|Hin];
        [now symmetry|].
      destruct (proj2 (Hext b) (or_introl eq_refl)) as [Heq|Hin'];
        [exact Heq|].
      exfalso. apply (pixel_lt_irrefl a).
      apply (pixel_lt_trans a b a); [now apply Ha|now apply Hb]. }
    subst b. f_equal. apply IH; [exact H1|exact H2|].
    intros x. split; intros Hx.
    + destruct (proj1 (Hext x) (or_intror Hx)) as [Heq|Hin]; [|exact Hin].
      subst x. exfalso. apply (pixel_lt_irrefl a). now apply Ha.
    + destruct (proj2 (Hext x) (or_intror Hx)) as [Heq|Hin]; [|exact Hin].
      subst x. exfalso. apply (pixel_lt_irrefl a). now apply Hb.
Qed.

Lemma np_unique_ext (pixels1 pixels2 : list pixel) :
  (forall p, In p pixels1 <-> In p pixels2) ->
  np_unique pixels1 = np_unique pixels2.
Proof.
  intros Hext. apply sorted_pixels_ext; try apply np_unique_sorted.
  intros x. now rewrite !np_unique_In.
Qed.

(** Two buffers with the same set of colors, whatever the order and number
    of their pixels, resolve to the same palette: in a cache reached from
    the empty one with room for an entry, looking up the palette of the
    first and then of the second returns the same id and the same color
    list, the second time as already cached. *)
Theorem same_colors_same_palette (size : nat) (calls : list (list pixel))
        (image1 image2 : PixelBuffer) :
  1 <= size ->
  (forall p, In p (reshape image1) <-> In p (reshape image2)) ->
  let self := fst (pm_run (PaletteManager_init size) [] calls) in
  exists pid created self1 self2,
    get_or_create_palette (np_unique (reshape image1)) self
    = (Ret (pid, created, np_unique (reshape image1)), self1)
    /\ get_or_create_palette (np_unique (reshape image2)) self1
       = (Ret (pid, false, np_unique (reshape image1)), self2).
Proof.
  intros Hsize Hext self.
  rewrite <- (np_unique_ext _ _ Hext).
  set (palette := np_unique (reshape image1)).
  set (hist := snd (pm_run (PaletteManager_init size) [] calls)).
  assert (Hinv : pm_inv self hist) by (apply pm_run_inv, pm_inv_init).
  assert (Hmax : 1 <= max_size self)
    by (unfold self; now rewrite pm_run_max_size).
  destruct (goc_returns self hist palette Hinv Hmax)
    as [pid [created [data [self1 [Hgoc [Hin Hc]]]]]].
  pose proof (goc_preserves self hist palette Hinv) as Hinv1.
  rewrite Hgoc in Hinv1. simpl in Hinv1.
  pose proof (inv_data _ _ Hinv1 pid data Hin) as Hlist.
  rewrite Hc in Hlist. rewrite Hlist in Hgoc.
  pose proof (find_present self1 _ palette pid data Hinv1 Hin Hc) as Hfind.
  destruct (goc_hit self1 palette pid data (pm_inv_NoDup _ _ Hinv1) Hfind)
    as [l1 [l2 [_ [_ Hgoc2]]]].
  rewrite Hlist in Hgoc2.
  exists pid, created, self1. eexists. split; [exact Hgoc|exact Hgoc2].
Qed.

(** ** Width of the index digits *)

Lemma hex_width_1 (i : nat) : i < 16 -> String.length (Fmt.hex i) = 1.
Proof.
  intros H.
  assert (Hall : forallb (fun i => (String.length (Fmt.hex i) =? 1)%nat)
                         (seq 0 16) = true) by (vm_compute; reflexivity).
  rewrite forallb_forall in Hall.
  apply Nat.eqb_eq, Hall, in_seq. lia.
Qed.

Lemma hex02_width_2 (i : nat) : i < 256 -> String.length (Fmt.hex02 i) = 2.
Proof.
  intros H.
  assert (Hall : forallb (fun i => (String.length (Fmt.hex02 i) =? 2)%nat)
                         (seq 0 256) = true) by (vm_compute; reflexivity).
  rewrite forallb_forall in Hall.
  apply Nat.eqb_eq, Hall, in_seq. lia.
Qed.

Lemma concat_all_fixed_width (parts : list string) (w : nat) :
  Forall (fun s => String.length s = w) parts ->
  String.length (Fmt.concat_all parts) = List.length parts * w.
Proof.
  induction 1 as [|s parts Hs _ IH]; simpl; [reflexivity|].
  rewrite string_length_app, IH, Hs. lia.
Qed.

(** The index digits of the indexed encoders have a fixed width: one
    hexadecimal digit per pixel when the palette has at most 16 colors, two
    when it has at most 256, so the digit string is as long as the number
    of pixels times that width. *)
Theorem index_digits_width (palette pixels : list pixel)
        (indices : list nat) :
  List.length palette <= MAX_PALETTE_COLORS ->
  lookup_indices (color_to_idx palette) pixels = Some indices ->
  String.length
    (Fmt.concat_all (map (hex_format (List.length palette)) indices))
  = List.length pixels
    * (if (List.length palette <=? 16)%nat then 1 else 2).
Proof.
  intros Hmax Hidx.
  pose proof (lookup_indices_sound palette pixels indices Hidx) as Hnth.
  rewrite <- (lookup_indices_length _ _ _ Hidx), <- (length_map
    (hex_format (List.length palette)) indices).
  apply concat_all_fixed_width. apply Forall_forall.
  intros s Hs. apply in_map_iff in Hs. destruct Hs as [i [<- Hi]].
  assert (Hlt : i < List.length palette).
  { clear -Hnth Hi. induction Hnth as [|p j ps js Hj _ IH];
      [contradiction|].
    destruct Hi as [->|Hi]; [|now apply IH].
    apply nth_error_Some. congruence. }
  unfold hex_format, MAX_PALETTE_COLORS in *.
  destruct (Nat.leb_spec (List.length palette) 16).
  - apply hex_width_1. lia.
  - apply hex02_width_2. lia.
Qed.

(** ** Instances of the further properties *)

Lemma diff_coords_spec_witness :
  (forall y x,
      In (y, x) (diff_coords tie_image tie_prev)
      <-> y < List.length tie_image /\ x < List.length (nth y tie_image [])
          /\ pixel_at tie_image y x <> pixel_at tie_prev y x)
  /\ StronglySorted scan_before (diff_coords tie_image tie_prev).
Proof.
  apply (diff_coords_spec tie_image tie_prev).
  constructor; [reflexivity|constructor].
Defined.

Lemma diff_update_declines_witness :
  (_create_diff_update tie_image (Some tie_prev) = None
   <-> tie_image = tie_prev)
  /\ _create_diff_update tie_image None = None.
Proof.
  apply (diff_update_declines tie_image tie_prev).
  constructor; [reflexivity|constructor].
Defined.




Lemma palette_ids_never_reused_witness :
  (true = true ->
   ~ In 0 (@nil nat) /\ 0 = next_palette_id (PaletteManager_init 2)
   /\ next_palette_id
        (snd (get_or_create_palette [black; white] (PaletteManager_init 2)))
      = 1)
  /\ (true = false ->
      In 0 (@nil nat) /\ In 0 (OD.keys (palettes (PaletteManager_init 2)))
      /\ next_palette_id
           (snd (get_or_create_palette [black; white]
                   (PaletteManager_init 2)))
         = next_palette_id (PaletteManager_init 2)).
Proof.
  apply (palette_ids_never_reused 2 [] [black; white] 0 true [black; white]
           (snd (get_or_create_palette [black; white]
                   (PaletteManager_init 2)))).
  reflexivity.
Defined.

Lemma indexed_payload_witness :
  exists pid created indices self1,
    get_or_create_palette (np_unique (reshape scenario_image))
                          (PaletteManager_init 2)
    = (Ret (pid, created, np_unique (reshape scenario_image)), self1)
    /\ Forall2 (fun p i => nth_error (np_unique (reshape scenario_image)) i
                           = Some p)
               (reshape scenario_image) indices
    /\ _create_indexed_update scenario_image [] (PaletteManager_init 2)
       = (Ret (Some ("I|" ++ Fmt.dec pid ++ "|"
                     ++ palette_payload_of created pid []
                          (np_unique (reshape scenario_image))
                     ++ "|"
                     ++ Fmt.concat_all
                          (map (hex_format
                                  (List.length
                                     (np_unique (reshape scenario_image))))
                               indices))),
          self1)
    /\ (palette_payload_of created pid []
          (np_unique (reshape scenario_image)) = ""
        <-> created = false /\ pid_in pid [] = true).
Proof.
  apply (indexed_payload scenario_image [] 2 []).
  - lia.
  - rewrite <- np_unique_count. vm_compute. lia.
Defined.

Lemma same_colors_same_palette_witness :
  exists pid created self1 self2,
    get_or_create_palette (np_unique (reshape scenario_image))
                          (PaletteManager_init 2)
    = (Ret (pid, created, np_unique (reshape scenario_image)), self1)
    /\ get_or_create_palette
         (np_unique (reshape [[white; black]; [white; white]])) self1
       = (Ret (pid, false, np_unique (reshape scenario_image)), self2).
Proof.
  apply (same_colors_same_palette 2 [] scenario_image
           [[white; black]; [white; white]]).
  - lia.
  - intros p. simpl. tauto.
Defined.

Lemma index_digits_width_witness :
  String.length
    (Fmt.concat_all (map (hex_format (List.length [black; white])) [0; 1; 1]))
  = List.length [black; white; white]
    * (if (List.length [black; white] <=? 16)%nat then 1 else 2).
Proof.
  apply (index_digits_width [black; white] [black; white; white] [0; 1; 1]).
  - unfold MAX_PALETTE_COLORS. simpl. lia.
  - reflexivity.
Defined.
